(** * scon: an interactive shell that manages SSH host entries

    A shallow embedding of [src/__main__.py].  Python text is modelled as
    [string], one character per [ascii] code, so the development covers text
    in the first 256 code points; the character classes of the regular
    expression engine and of [str.strip] / [str.lower] are the interpreter's
    classes restricted to that range.  Python integers are [Z]; [int] has
    the interpreter's limit on the digits of a conversion.  Effects (the
    config file, terminal input and output, child processes) are threaded
    through an explicit [world] by a small state-and-exception monad; the
    files of the world hold text, as text-mode reading decodes it. *)

From Stdlib Require Import ZArith Lia List Bool Ascii String.
From Stdlib Require Import DecimalString DecimalZ DecimalN DecimalPos.
From Stdlib Require Import DecimalFacts.
From stdpp Require Import gmap strings.
Import ListNotations.

Local Open Scope string_scope.
Local Open Scope list_scope.

(** Appending to a text that starts with known characters computes. *)
#[local] Arguments String.append !s1 s2.

(* ================================================================== *)
(** ** Characters *)

Definition LF : ascii := ascii_of_nat 10.
Definition TAB : ascii := ascii_of_nat 9.
Definition CR : ascii := ascii_of_nat 13.

(** [str.isspace] on one character: TAB, LF, VT, FF, CR, the four
    separators FS/GS/RS/US, space, NEL (0x85) and NBSP (0xA0). *)
Definition is_space (c : ascii) : bool :=
  let n := N_of_ascii c in
  ((9 <=? n) && (n <=? 13) || (28 <=? n) && (n <=? 32)
   || (n =? 133) || (n =? 160))%N.

(** The decimal digits ['0'] .. ['9']. *)
Definition is_digit (c : ascii) : bool :=
  let n := N_of_ascii c in ((48 <=? n) && (n <=? 57))%N.

(** [str.lower] on one character: [A-Z] and the accented capitals
    0xC0..0xDE (without the multiplication sign 0xD7) move up by 32. *)
Definition lower_char (c : ascii) : ascii :=
  let n := N_of_ascii c in
  if ((65 <=? n) && (n <=? 90)
      || (192 <=? n) && (n <=? 222) && negb (n =? 215))%N
  then ascii_of_N (n + 32) else c.

(* ================================================================== *)
(** ** Strings *)

Definition chr (c : ascii) : string := String c EmptyString.

Fixpoint str_all (p : ascii -> bool) (s : string) : bool :=
  match s with
  | EmptyString => true
  | String c s' => p c && str_all p s'
  end.

Fixpoint str_map (f : ascii -> ascii) (s : string) : string :=
  match s with
  | EmptyString => EmptyString
  | String c s' => String (f c) (str_map f s')
  end.

Fixpoint str_repeat (c : ascii) (n : nat) : string :=
  match n with
  | O => EmptyString
  | S n' => String c (str_repeat c n')
  end.

(** [s.startswith(p)]. *)
Definition startswith (s p : string) : bool := String.prefix p s.

(** The text left of [s] once the literal [p] has been read off its front. *)
Fixpoint strip_prefix (p s : string) : option string :=
  match p with
  | EmptyString => Some s
  | String a p' =>
      match s with
      | EmptyString => None
      | String b s' => if Ascii.eqb a b then strip_prefix p' s' else None
      end
  end.

(** [s[:n]]. *)
Fixpoint take (n : nat) (s : string) : string :=
  match n, s with
  | S n', String c s' => String c (take n' s')
  | _, _ => EmptyString
  end.

Fixpoint lstrip (s : string) : string :=
  match s with
  | EmptyString => EmptyString
  | String c s' => if is_space c then lstrip s' else s
  end.

Fixpoint rstrip (s : string) : string :=
  match s with
  | EmptyString => EmptyString
  | String c s' =>
      match rstrip s' with
      | EmptyString => if is_space c then EmptyString else chr c
      | r => String c r
      end
  end.

(** [s.strip()]. *)
Definition strip (s : string) : string := rstrip (lstrip s).

(** [s.lower()]. *)
Definition lower (s : string) : string := str_map lower_char s.

(** [s.replace(a, b)] for one-character [a] and [b]. *)
Definition replace (a b : ascii) (s : string) : string :=
  str_map (fun c => if Ascii.eqb c a then b else c) s.

(** [s.split(sep)] for a one-character separator: every occurrence
    separates, empty fields are kept, the result is never empty. *)
Fixpoint split (sep : ascii) (s : string) : list string :=
  match s with
  | EmptyString => [EmptyString]
  | String c s' =>
      if Ascii.eqb c sep then EmptyString :: split sep s'
      else match split sep s' with
           | h :: t => String c h :: t
           | [] => [chr c]
           end
  end.

(** [s.split(sep, 1)]: at most one cut, at the first separator. *)
Fixpoint split1 (sep : ascii) (s : string) : list string :=
  match s with
  | EmptyString => [EmptyString]
  | String c s' =>
      if Ascii.eqb c sep then [EmptyString; s']
      else match split1 sep s' with
           | h :: t => String c h :: t
           | [] => [chr c]
           end
  end.

(** [s.ljust(width, fill)]: never truncates. *)
Definition ljust (s : string) (width : nat) (fill : ascii) : string :=
  s ++ str_repeat fill (width - String.length s).

(** [sep.join(l)]. *)
Definition join (sep : string) (l : list string) : string := String.concat sep l.

(** [x or d] on strings: the empty string is falsy. *)
Definition or_default (x d : string) : string :=
  match x with EmptyString => d | _ => x end.

(* ================================================================== *)
(** ** Exceptions and results *)

Inductive exn : Type :=
| ValueError
| IndexError
| FileNotFoundError
| KeyboardInterrupt
| EOFError
| ExpatError
| SystemExit (code : Z).

Inductive result (A : Type) : Type :=
| Ok (a : A)
| Raise (e : exn).
Arguments Ok {A} a.
Arguments Raise {A} e.

Definition rbind {A B} (r : result A) (f : A -> result B) : result B :=
  match r with
  | Ok a => f a
  | Raise e => Raise e
  end.

(* ================================================================== *)
(** ** Integers and their decimal text *)

(** [sys.get_int_max_str_digits()]: the most digits the interpreter takes
    or gives in a conversion between text and integer.  The program leaves
    it at the interpreter's default. *)
Definition int_max_str_digits : nat := 4300.

(** [str(n)] / [f'{n}'], for an integer of at most [int_max_str_digits]
    digits.  The interpreter refuses to format a longer one; the ports the
    program formats come from [int] or are [DEFAULT_PORT], and [int] gives
    no longer one ([int_within_limit] below). *)
Definition str_of_int (n : Z) : string := NilZero.string_of_int (Z.to_int n).

(** The white space [int] passes over at the two ends of its text: TAB,
    LF, VT, FF, CR, space, NEL and NBSP.  Unlike [str.strip] it does not
    take the four separators FS/GS/RS/US. *)
Definition is_int_space (c : ascii) : bool :=
  let n := N_of_ascii c in
  ((9 <=? n) && (n <=? 13) || (n =? 32) || (n =? 133) || (n =? 160))%N.

Fixpoint skip_leading (s : string) : string :=
  match s with
  | EmptyString => EmptyString
  | String c s' => if is_int_space c then skip_leading s' else s
  end.

Fixpoint skip_trailing (s : string) : string :=
  match s with
  | EmptyString => EmptyString
  | String c s' =>
      match skip_trailing s' with
      | EmptyString => if is_int_space c then EmptyString else chr c
      | r => String c r
      end
  end.

(** Digits with single underscores between them, as [int] accepts them:
    the underscores are dropped; [None] when one is misplaced. *)
Fixpoint drop_underscores (after_digit : bool) (s : string) : option string :=
  match s with
  | EmptyString => if after_digit then Some EmptyString else None
  | String c s' =>
      if Ascii.eqb c "_" then
        if after_digit then drop_underscores false s' else None
      else option_map (String c) (drop_underscores true s')
  end.

(** [int(s)] in base ten: surrounding white space is ignored, one sign is
    allowed, then decimal digits (single underscores may separate them);
    anything else is a [ValueError], and so is a text of more than
    [int_max_str_digits] digits, leading zeros counted, sign and
    underscores not.  Integers themselves are unbounded. *)
Definition int (s : string) : result Z :=
  let t := skip_trailing (skip_leading s) in
  let '(negative, body) :=
    match t with
    | String c r =>
        if Ascii.eqb c "-" then (true, r)
        else if Ascii.eqb c "+" then (false, r)
        else (false, t)
    | EmptyString => (false, t)
    end in
  match drop_underscores false body with
  | Some ds =>
      match NilZero.uint_of_string ds with
      | Some u =>
          if (String.length ds <=? int_max_str_digits)%nat
          then Ok (if negative then - Z.of_uint u else Z.of_uint u)%Z
          else Raise ValueError
      | None => Raise ValueError
      end
  | None => Raise ValueError
  end.

(** [max(xs)] over a generator of lengths: empty input is a [ValueError]. *)
Definition py_max (xs : list nat) : result nat :=
  match xs with
  | [] => Raise ValueError
  | x :: xs' => Ok (fold_left Nat.max xs' x)
  end.

(* ================================================================== *)
(** ** The regular-expression engine

    A pattern is embedded as a backtracking matcher in continuation-passing
    style: it reads a prefix of the text, extends the captured groups, and
    hands the unread text to its continuation; when the continuation
    fails, the matcher tries its next alternative, the greedier one first,
    as the interpreter's engine does. *)

Definition groupdict : Type := list (string * string).
Definition answer : Type := option (groupdict * string).
Definition cont : Type := string -> groupdict -> answer.
Definition re : Type := string -> groupdict -> cont -> answer.

(** A run of literal characters. *)
Definition lit (l : string) : re :=
  fun s g k =>
    match strip_prefix l s with
    | Some s' => k s' g
    | None => None
    end.

(** [c+] for a character class [c]: one or more, greedy. *)
Fixpoint plus (p : ascii -> bool) (s : string) (g : groupdict) (k : cont)
  : answer :=
  match s with
  | String c s' =>
      if p c then
        match plus p s' g k with
        | Some a => Some a
        | None => k s' g
        end
      else None
  | EmptyString => None
  end.

(** [c?] for one character [c]: greedy. *)
Definition opt (c : ascii) : re :=
  fun s g k =>
    match s with
    | String c' s' =>
        if Ascii.eqb c' c then
          match k s' g with
          | Some a => Some a
          | None => k s g
          end
        else k s g
    | EmptyString => k s g
    end.

(** [r1 r2]. *)
Definition seq (r1 r2 : re) : re :=
  fun s g k => r1 s g (fun s' g' => r2 s' g' k).

(** [(?P<name>r)]: the text [r] read is recorded under [name]. *)
Definition named (name : string) (r : re) : re :=
  fun s g k =>
    r s g (fun s' g' =>
             k s' ((name, take (String.length s - String.length s') s) :: g')).

Declare Scope re_scope.
Delimit Scope re_scope with re.
Bind Scope re_scope with re.
Infix "⋅" := seq (at level 41, right associativity) : re_scope.

(** The character classes of the pattern: a blank, [.], [\S] and [\d]. *)
Definition blank (c : ascii) : bool := Ascii.eqb c " ".
Definition dot (c : ascii) : bool := negb (Ascii.eqb c LF).
Definition non_space (c : ascii) : bool := negb (is_space c).

(** One attempt at the front of [s]: the groups and the unread text. *)
Definition match_at (r : re) (s : string) : answer :=
  r s [] (fun s' g => Some (g, s')).

(** [re.finditer]: the matches from left to right, none overlapping.  The
    scan tries every position in turn; after a match it resumes where the
    match ended, so the [inside] characters of a match are passed over. *)
Fixpoint scan (r : re) (inside : nat) (s : string) : list groupdict :=
  match s with
  | EmptyString =>
      match inside, match_at r s with
      | O, Some (g, _) => [g]
      | _, _ => []
      end
  | String _ s' =>
      match inside with
      | S n => scan r n s'
      | O =>
          match match_at r s with
          | Some (g, rest) =>
              g :: scan r (String.length s' - String.length rest) s'
          | None => scan r O s'
          end
      end
  end.

Definition finditer (r : re) (s : string) : list groupdict := scan r O s.

(** [match.group(name)]. *)
Fixpoint group (m : groupdict) (name : string) : result string :=
  match m with
  | [] => Raise IndexError
  | (n, v) :: m' => if String.eqb n name then Ok v else group m' name
  end.

(* ================================================================== *)
(** ** The config file format *)

Definition nl_tab (s : string) : string := String LF (String TAB s).

Definition SSH_KEY_FILE_REGEX : re :=
  (lit "Host" ⋅ plus blank ⋅ named "ID" (plus dot) ⋅
   lit (nl_tab "Hostname") ⋅ plus blank ⋅ named "hostname" (plus non_space) ⋅
   lit (nl_tab "User") ⋅ plus blank ⋅ named "user" (plus non_space) ⋅
   lit (nl_tab "Port") ⋅ plus blank ⋅ named "port" (plus is_digit) ⋅
   lit (nl_tab "IdentityFile") ⋅ plus blank ⋅ named "key_file" (plus non_space) ⋅
   opt LF)%re.

Record SSHConfig : Type := mkSSHConfig {
  ID : string;
  hostname : string;
  user : string;
  port : Z;
  key_file : string
}.

(** The body of the loop of [file_to_dataclass]: one record per match. *)
Definition config_of_match (m : groupdict) : result SSHConfig :=
  rbind (group m "ID") (fun id =>
  rbind (group m "hostname") (fun h =>
  rbind (group m "user") (fun u =>
  rbind (group m "port") (fun p =>
  rbind (int p) (fun n =>
  rbind (group m "key_file") (fun k =>
  Ok (mkSSHConfig id h u n k))))))).

Fixpoint configs_of_matches (ms : list groupdict) : result (list SSHConfig) :=
  match ms with
  | [] => Ok []
  | m :: ms' =>
      rbind (config_of_match m) (fun c =>
      rbind (configs_of_matches ms') (fun cs => Ok (c :: cs)))
  end.

(** What [file_to_dataclass] makes of the text it has read. *)
Definition parse (content : string) : result (list SSHConfig) :=
  configs_of_matches (finditer SSH_KEY_FILE_REGEX content).

(** The text [dataclass_to_file] writes for one record. *)
Definition block (config : SSHConfig) : string :=
  "Host " ++ ID config ++ chr LF ++
  String TAB "Hostname " ++ hostname config ++ chr LF ++
  String TAB "User " ++ user config ++ chr LF ++
  String TAB "Port " ++ str_of_int (port config) ++ chr LF ++
  String TAB "IdentityFile " ++ key_file config ++ String LF (chr LF).

Fixpoint serialize (data : list SSHConfig) : string :=
  match data with
  | [] => EmptyString
  | config :: data' => block config ++ serialize data'
  end.

(* ================================================================== *)
(** ** The world: files, terminal, child processes *)

(** One answer of the terminal to [session.prompt]: a line of text, an
    interrupt (Ctrl-C) or the end of input (Ctrl-D). *)
Inductive key : Type :=
| Line (text : string)
| CtrlC
| CtrlD.

(** What the program shows, one entry per call: [print(text)],
    [stderr(text, end)], the two calls that render markup
    ([print_formatted_text(HTML(..))] on either stream), the message of a
    prompt, and [clear()].  How the terminal renders them is not
    modelled. *)
Inductive output : Type :=
| Out (text : string)
| Err (text ending : string)
| OutHTML (markup : string)
| ErrHTML (markup : string)
| Ask (message : string)
| ClearScreen.

Record world : Type := mkWorld {
  files : gmap string string;   (* regular files: path to text *)
  keys : list key;              (* what the user is going to type *)
  log : list output             (* what has been shown, oldest first *)
}.

(** How [subprocess.run] ends: the child exits, the user interrupts it, or
    the program cannot be started. *)
Inductive proc_result : Type :=
| Exited (returncode : Z) (out err : string)
| Interrupted
| NotStarted.

Definition M (A : Type) : Type := world -> result A * world.

Definition ret {A} (a : A) : M A := fun w => (Ok a, w).
Definition raise {A} (e : exn) : M A := fun w => (Raise e, w).
Definition bind {A B} (m : M A) (f : A -> M B) : M B :=
  fun w =>
    match m w with
    | (Ok a, w') => f a w'
    | (Raise e, w') => (Raise e, w')
    end.
Definition lift {A} (r : result A) : M A := fun w => (r, w).

(** [try: m] with the outcome handed to the [except] clauses. *)
Definition try {A} (m : M A) : M (result A) :=
  fun w => let '(r, w') := m w in (Ok r, w').

Declare Scope monad_scope.
Delimit Scope monad_scope with monad.
Notation "x <- m ;; k" := (bind m (fun x => k))
  (at level 100, m at next level, right associativity) : monad_scope.
Notation "m ;; k" := (bind m (fun _ => k))
  (at level 100, right associativity) : monad_scope.
Local Open Scope monad_scope.

Definition show (o : output) : M unit :=
  fun w => (Ok tt, mkWorld (files w) (keys w) (log w ++ [o])).

Definition print (text : string) : M unit := show (Out text).

(** [stderr(text, end)]. *)
Definition stderr (text ending : string) : M unit := show (Err text ending).

(** [session.prompt(message)]: the message is shown and the next key is
    taken; when nothing is left to read the input has ended. *)
Definition prompt (message : string) : M string :=
  fun w =>
    let w' := mkWorld (files w) (tl (keys w)) (log w ++ [Ask message]) in
    match keys w with
    | Line text :: _ => (Ok text, w')
    | CtrlC :: _ => (Raise KeyboardInterrupt, w')
    | CtrlD :: _ => (Raise EOFError, w')
    | [] => (Raise EOFError, w')
    end.

(** Text-mode reading turns every line ending (CR LF, lone CR) into LF. *)
Fixpoint universal_newlines (s : string) : string :=
  match s with
  | EmptyString => EmptyString
  | String c s' =>
      if Ascii.eqb c CR then
        String LF match s' with
                  | String c' s'' =>
                      if Ascii.eqb c' LF then universal_newlines s''
                      else universal_newlines s'
                  | EmptyString => EmptyString
                  end
      else String c (universal_newlines s')
  end.

(** [open(path).read()].  The store holds, for every file, the text that
    reading it in text mode decodes; a file whose bytes do not decode in
    the encoding of the locale, on which reading raises
    [UnicodeDecodeError], has no counterpart in the store, so every
    statement about reading is one about files that decode. *)
Definition read_file (path : string) : M string :=
  fun w =>
    match files w !! path with
    | Some text => (Ok (universal_newlines text), w)
    | None => (Raise FileNotFoundError, w)
    end.

(** [open(path, mode="w")] and the writes up to the close: the file then
    holds exactly [text].  The file is taken to be writable. *)
Definition write_file (path text : string) : M unit :=
  fun w => (Ok tt, mkWorld (<[path := text]> (files w)) (keys w) (log w)).

(** [os.path.exists(path)]. *)
Definition path_exists (path : string) : M bool :=
  fun w => (Ok (bool_decide (is_Some (files w !! path))), w).

(** [os.remove(path)]. *)
Definition remove (path : string) : M unit :=
  fun w =>
    match files w !! path with
    | Some _ => (Ok tt, mkWorld (delete path (files w)) (keys w) (log w))
    | None => (Raise FileNotFoundError, w)
    end.

(** A [for] loop over a list. *)
Fixpoint for_each {A} (l : list A) (body : A -> M unit) : M unit :=
  match l with
  | [] => ret tt
  | x :: l' => body x ;; for_each l' body
  end.

(** [file_to_dataclass]. *)
Definition file_to_dataclass (file : string) : M (list SSHConfig) :=
  content <- read_file file ;;
  lift (parse content).

(** [dataclass_to_file]. *)
Definition dataclass_to_file (file : string) (data : list SSHConfig) : M unit :=
  write_file file (serialize data).

(** [yes]: asks until the answer is one of y, yes, the empty line (true)
    or n, no (false).  The loop runs on the keys still to come. *)
Fixpoint yes_from (message : string) (ks : list key) (shown : list output)
  : result bool * list key * list output :=
  match ks with
  | Line text :: ks' =>
      let _in := lower (strip text) in
      if String.eqb _in "y" || String.eqb _in "yes" || String.eqb _in "" then
        (Ok true, ks', shown ++ [Ask message])
      else if String.eqb _in "n" || String.eqb _in "no" then
        (Ok false, ks', shown ++ [Ask message])
      else yes_from message ks' (shown ++ [Ask message])
  | CtrlC :: ks' => (Raise KeyboardInterrupt, ks', shown ++ [Ask message])
  | CtrlD :: ks' => (Raise EOFError, ks', shown ++ [Ask message])
  | [] => (Raise EOFError, [], shown ++ [Ask message])
  end.

Definition yes (message : string) : M bool :=
  fun w =>
    let '(r, ks, shown) := yes_from message (keys w) (log w) in
    (r, mkWorld (files w) ks shown).

(* ================================================================== *)
(** ** The program *)

Inductive ctl : Type := Continue | Break.

Definition ESC : ascii := ascii_of_nat 27.
Definition REVERSED : string := String ESC "[7m".
Definition RESET : string := String ESC "[0m".

Definition DEFAULT_USER : string := "admin".
Definition DEFAULT_PORT : Z := 22.

Section Program.

(** [Path.home()], and what the operating system does with a command
    line: how the child ends and the files it leaves behind. *)
Variable home : string.
Variable os_exec : list string -> gmap string string ->
                   proc_result * gmap string string.

(** Whether the terminal library takes a text as markup, that is, builds
    [HTML(text)] and prints it.  The library parses the text when the
    object is built and raises on text that is not well-formed; that is
    the refusal the model has.  A text the library parses but then
    refuses to print is refused as well, with an error of its own that
    the model does not tell apart. *)
Variable markup_ok : string -> bool.

Definition CONFIG_FILE : string := home ++ "/.ssh/config".
Definition SSH_KEY_DIR : string := home ++ "/.ssh/keys".

(** [subprocess.run(argv, ..)]: return code, captured stdout and stderr. *)
Definition subprocess_run (argv : list string) : M (Z * string * string) :=
  fun w =>
    let '(r, fs) := os_exec argv (files w) in
    let w' := mkWorld fs (keys w) (log w) in
    match r with
    | Exited rc out err => (Ok (rc, out, err), w')
    | Interrupted => (Raise KeyboardInterrupt, w')
    | NotStarted => (Raise FileNotFoundError, w')
    end.

(** [list_config]. *)
Definition list_config : M unit :=
  hosts <- file_to_dataclass CONFIG_FILE ;;
  i <- lift (py_max (map (fun h => String.length (ID h)) hosts)) ;;
  j <- lift (py_max (map (fun h => String.length (hostname h) + 1
                                   + String.length (user h)) hosts)) ;;
  print (ljust "IDENTIFIER" i " " ++ " | HOST") ;;
  print (str_repeat "=" (i + j + 3)) ;;
  for_each hosts (fun host =>
    print (ljust (ID host) i "." ++ " | "
           ++ ljust (user host ++ "@" ++ hostname host) j ".")) ;;
  first <- match hosts with
           | h :: _ => ret h
           | [] => raise IndexError
           end ;;
  print (String LF "Usage: 'ssh <identifier>' (eg: ssh " ++ ID first ++ ")").

(** [add_host], by the blocks its comments mark. *)

(** "domain name": the host name and the alias. *)
Definition ask_domain_name : M (string * string) :=
  line <- prompt "Enter the domain name. (e.g. host.example.com): " ;;
  let hostname := lower (strip line) in
  ID <- match split1 "." hostname with
        | [a; _] => ret a
        | _ => raise ValueError
        end ;;
  alias <- prompt ("Enter an alias of the host (usage: ssh <alias>) ["
                   ++ ID ++ "]: ") ;;
  ret (hostname, or_default alias ID).

(** "check if host is up": [false] when the wizard is to stop. *)
Definition check_host_up (hostname : string) : M bool :=
  ping <- subprocess_run ["ping"; "-c"; "1"; "-i"; "0.5"; hostname] ;;
  let '(returncode, _, _) := ping in
  if negb (returncode =? 0)%Z then
    stderr (hostname ++ " can't be reached, do want to continue anyway? [Y/n] ")
           "" ;;
    go_on <- yes "" ;;
    if negb go_on then stderr "... aborting" (chr LF) ;; ret false
    else ret true
  else ret true.

(** "user name". *)
Definition ask_user : M string :=
  line <- prompt ("please enter the user [" ++ DEFAULT_USER ++ "]: ") ;;
  ret (or_default (strip line) DEFAULT_USER).

(** "port". *)
Definition ask_port : M Z :=
  line <- prompt ("please enter the port [" ++ str_of_int DEFAULT_PORT
                  ++ "]: ") ;;
  match strip line with
  | EmptyString => ret 22%Z
  | text => lift (int text)
  end.

(** "check for existing configuration": the records to keep, or [None]
    when the user declines to overwrite. *)
Definition check_existing (hostname' : string) : M (option (list SSHConfig)) :=
  hosts <- file_to_dataclass CONFIG_FILE ;;
  if existsb (fun h => String.eqb hostname' (hostname h)) hosts then
    stderr ("There is already a configuration for the host " ++ hostname'
            ++ ", do you want to overwrite it? [Y/n] ") "" ;;
    go_on <- yes "" ;;
    if negb go_on then stderr "... aborting" (chr LF) ;; ret None
    else ret (Some (List.filter
                      (fun h => negb (String.eqb (hostname h) hostname'))
                      hosts))
  else ret (Some hosts).

(** "generate public and private key": the key file and the public key. *)
Definition generate_keys (hostname : string) : M (string * string) :=
  print "generating keys ..." ;;
  subprocess_run ["mkdir"; "-p"; SSH_KEY_DIR] ;;
  let key_file := (SSH_KEY_DIR ++ "/" ++ replace "." "_" hostname)%string in
  present <- path_exists key_file ;;
  (if present then remove key_file ;; remove (key_file ++ ".pub")
   else ret tt) ;;
  subprocess_run ["ssh-keygen"; "-t"; "ed25519"; "-C";
                  ("'key for " ++ hostname ++ "'")%string; "-f"; key_file;
                  "-q"] ;;
  text <- read_file (key_file ++ ".pub") ;;
  ret (key_file, strip text).

(** From the check for an existing configuration to the end. *)
Definition store_host (hostname ID user : string) (port : Z) : M unit :=
  kept <- check_existing hostname ;;
  match kept with
  | None => ret tt
  | Some hosts =>
      generated <- generate_keys hostname ;;
      let '(key_file, public_key) := generated in
      let new_config_data := mkSSHConfig ID hostname user port key_file in
      dataclass_to_file CONFIG_FILE (hosts ++ [new_config_data]) ;;
      print "... wizard done." ;;
      print "" ;;
      print ("PUBLIC KEY: " ++ REVERSED ++ public_key ++ RESET) ;;
      print "" ;;
      print "To connect to the VM follow these steps:" ;;
      print (String TAB "1. copy the public key to the cloud-init drive of the VM. "
             ++ String LF (String TAB "   this can be done in proxmox")) ;;
      print (String TAB "2. run " ++ REVERSED ++ "ssh " ++ ID ++ RESET
             ++ " to connect to the VM")
  end.

Definition add_host : M unit :=
  asked <- ask_domain_name ;;
  let '(hostname, ID) := asked in
  up <- check_host_up hostname ;;
  if up then
    user <- ask_user ;;
    port <- ask_port ;;
    store_host hostname ID user port
  else ret tt.

(** [configure]. *)
Definition configure (cmd : list string) : M unit :=
  first <- match cmd with
           | c :: _ => ret c
           | [] => raise IndexError
           end ;;
  if String.eqb first "show" then
    print "Configured values for this script:" ;;
    print ("  DEFAULT-USER : " ++ DEFAULT_USER) ;;
    print ("  DEFAULT-PORT : " ++ str_of_int DEFAULT_PORT) ;;
    print ("  CONFIG-FILE  : " ++ CONFIG_FILE) ;;
    print ("  SSH-KEY-DIR  : " ++ SSH_KEY_DIR)
  else if String.eqb first "set" && (List.length cmd =? 3)%nat then
    ret tt
  else stderr ("Invalid cmd for 'configure: " ++ join " " cmd) (chr LF).

(** The branches of the dispatch. *)

Definition ssh_command (text : string) : M unit :=
  r <- try (subprocess_run (split " " text)) ;;
  match r with
  | Ok (_, out, err) =>
      (match out with EmptyString => ret tt | _ => print out end) ;;
      (match err with EmptyString => ret tt | _ => stderr err (chr LF) end)
  | Raise KeyboardInterrupt => stderr " Keyboard Interrupt!" (chr LF)
  | Raise e => raise e
  end.

Definition help_text : list (string * string) :=
  [ ("ssh <alias>", "Connect to a ssh host by it's alias.");
    ("remove <alias>", "Remove an ssh host from the config.");
    ("add", "Run wizard to add a new ssh host.");
    ("list", "List all ssh hosts.");
    ("help", "Print this help.");
    ("exit", "Exit the shell.");
    ("clear", "Clears the screen.");
    ("configure [show | set ..]",
     "Show and change the default values of the wizard.") ].

Definition help_command : M unit :=
  width <- lift (py_max (map (fun e => String.length (fst e)) help_text)) ;;
  for_each help_text (fun e => print (ljust (fst e) width " " ++ " : " ++ snd e)).

(** [HTML(text)]. *)
Definition HTML (text : string) : M string :=
  if markup_ok text then ret text else raise ExpatError.

Definition unknown_command (text : string) : M unit :=
  markup <- HTML ("Unknown Command: " ++ text ++ String LF
                  "Enter <b>help</b> for a list of all commands.") ;;
  show (OutHTML markup).

(** The chain of [startswith] tests on the line that was read. *)
Definition dispatch (text : string) : M ctl :=
  if startswith text "ssh" then ssh_command text ;; ret Continue
  else if startswith text "remove" then ret Continue
  else if startswith text "add" then ret Continue
  else if startswith text "list" then list_config ;; ret Continue
  else if startswith text "help" then help_command ;; ret Continue
  else if startswith text "exit" then ret Break
  else if startswith text "configure" then
    configure (tl (split " " text)) ;; ret Continue
  else if startswith text "clear" then show ClearScreen ;; ret Continue
  else unknown_command text ;; ret Continue.

(** One turn of the [while True] loop. *)
Definition iteration : M ctl :=
  file_to_dataclass CONFIG_FILE ;;
  r <- try (prompt ">>> ") ;;
  match r with
  | Ok text => dispatch text
  | Raise KeyboardInterrupt =>
      markup <- HTML "Enter <b>exit</b> to exit the shell or press <b>CTRL-D</b>." ;;
      show (ErrHTML markup) ;;
      ret Continue
  | Raise EOFError =>
      stderr "... exiting" (chr LF) ;;
      raise (SystemExit (-1))
  | Raise e => raise e
  end.

(** The loop, for at most [turns] turns; [None] when they did not
    suffice. *)
Fixpoint main_loop (turns : nat) : M (option unit) :=
  match turns with
  | O => ret None
  | S n =>
      c <- iteration ;;
      match c with
      | Continue => main_loop n
      | Break => ret (Some tt)
      end
  end.

End Program.

(* ================================================================== *)
(** * The vocabulary of the properties *)

Local Open Scope string_scope.

(** A text that is empty or starts outside the class [p]: a greedy
    [p+] cannot take anything from it. *)
Definition stops (p : ascii -> bool) (s : string) : bool :=
  match s with
  | EmptyString => true
  | String c _ => negb (p c)
  end.

(** A non-empty run of characters without white space. *)
Definition token (s : string) : bool :=
  negb (String.eqb s "") && str_all non_space s.

(** The rest of a pattern succeeds on a text whatever has been captured
    so far. *)
Definition accepts (r : re) (k : cont) (s : string) : Prop :=
  forall g, r s g k <> None.

(** The groups of the match of a serialized record. *)
Definition groups_of (config : SSHConfig) : groupdict :=
  [ ("key_file", key_file config);
    ("port", str_of_int (port config));
    ("user", user config);
    ("hostname", hostname config);
    ("ID", ID config) ].

(** A number [int] takes back from its decimal text: it is not negative
    and has no more digits than the interpreter converts. *)
Definition convertible (n : Z) : bool :=
  (0 <=? n)%Z && (String.length (str_of_int n) <=? int_max_str_digits)%nat.

(** A record the file format can hold: its four texts are tokens and its
    port prints as decimal digits that read back. *)
Definition well_formed (config : SSHConfig) : bool :=
  token (ID config) && token (hostname config) && token (user config)
  && convertible (port config) && token (key_file config).

Definition blanks (s : string) : Prop := s <> "" /\ str_all blank s = true.

(** The five lines of a block, and the record they stand for. *)
Inductive block_text : string -> SSHConfig -> Prop :=
| block_text_intro (sp1 id sp2 h sp3 u sp4 p sp5 kf e : string) (n : Z) :
    blanks sp1 -> id <> "" -> str_all dot id = true ->
    blanks sp2 -> token h = true ->
    blanks sp3 -> token u = true ->
    blanks sp4 -> p <> "" -> str_all is_digit p = true -> int p = Ok n ->
    blanks sp5 -> token kf = true ->
    e = "" \/ e = chr LF ->
    block_text ("Host" ++ sp1 ++ id ++
                nl_tab "Hostname" ++ sp2 ++ h ++
                nl_tab "User" ++ sp3 ++ u ++
                nl_tab "Port" ++ sp4 ++ p ++
                nl_tab "IdentityFile" ++ sp5 ++ kf ++ e)
               (mkSSHConfig id h u n kf).

(** The blocks of a text from left to right.  Where the pattern does not
    match, no block starts and the character is passed over; where it
    matches, what it has read is a block, the record of that block is
    next, and the scan goes on behind the match. *)
Inductive blocks_of : string -> list SSHConfig -> Prop :=
| blocks_end : blocks_of "" []
| blocks_skip (c : ascii) (s : string) (cs : list SSHConfig) :
    match_at SSH_KEY_FILE_REGEX (String c s) = None ->
    (forall b rest config, String c s = b ++ rest -> ~ block_text b config) ->
    blocks_of s cs ->
    blocks_of (String c s) cs
| blocks_block (b rest : string) (m : groupdict) (config : SSHConfig)
               (cs : list SSHConfig) :
    match_at SSH_KEY_FILE_REGEX (b ++ rest) = Some (m, rest) ->
    block_text b config ->
    config_of_match m = Ok config ->
    blocks_of rest cs ->
    blocks_of (b ++ rest) (config :: cs).

(** The Port fields of the blocks the pattern finds in a text, from left
    to right: what [match.group("port")] gives, match by match. *)
Definition port_fields (content : string) : list string :=
  flat_map (fun m => match group m "port" with
                     | Ok p => [p]
                     | Raise _ => []
                     end)
           (finditer SSH_KEY_FILE_REGEX content).

(** A text of more digits than [int] converts. *)
Definition overlong (p : string) : bool :=
  (int_max_str_digits <? String.length p)%nat.

Definition no_cr (c : ascii) : bool := negb (Ascii.eqb c CR).

(** The two column widths of [list_config] for a list that starts with
    [first]. *)
Definition id_width (first : SSHConfig) (others : list SSHConfig) : nat :=
  fold_left Nat.max (map (fun h => String.length (ID h)) others)
            (String.length (ID first)).

Definition host_width (first : SSHConfig) (others : list SSHConfig) : nat :=
  fold_left Nat.max
            (map (fun h => String.length (hostname h) + 1
                           + String.length (user h)) others)
            (String.length (hostname first) + 1 + String.length (user first)).

(** What [list_config] prints for a list that is not empty. *)
Definition listing (first : SSHConfig) (others : list SSHConfig) : list output :=
  let i := id_width first others in
  let j := host_width first others in
  ([ Out (ljust "IDENTIFIER" i " " ++ " | HOST");
     Out (str_repeat "=" (i + j + 3)) ]
   ++ map (fun host => Out (ljust (ID host) i "." ++ " | "
                            ++ ljust (user host ++ "@" ++ hostname host) j "."))
          (first :: others)
   ++ [ Out (String LF "Usage: 'ssh <identifier>' (eg: ssh " ++ ID first ++ ")") ]
  )%list.

Fixpoint take_while (p : ascii -> bool) (s : string) : string :=
  match s with
  | EmptyString => EmptyString
  | String c s' => if p c then String c (take_while p s') else EmptyString
  end.

(** The first whitespace-delimited token of a line, as [line.split()[0]]
    gives it: leading white space is passed over ([""] when there is no
    token). *)
Definition first_token (text : string) : string :=
  take_while non_space (lstrip text).

Definition COMMANDS : list string :=
  ["ssh"; "remove"; "add"; "list"; "help"; "exit"; "configure"; "clear"].

(** One of the command names is a prefix of [s]. *)
Definition names_command (s : string) : bool :=
  existsb (startswith s) COMMANDS.

(** The markup of the unknown-command message: the line goes into it as
    it was typed. *)
Definition unknown_markup (text : string) : string :=
  "Unknown Command: " ++ text ++ String LF
  "Enter <b>help</b> for a list of all commands.".

(** The outcome of a turn that reports [text] as unknown: one message,
    the line taken from the keys, nothing else changed. *)
Definition reported_unknown (w : world) (text : string) (ks : list key)
  : result ctl * world :=
  (Ok Continue,
   mkWorld (files w) ks
     (log w ++ [ Ask ">>> "; OutHTML (unknown_markup text) ])%list).

(** The outcome of a turn that finds [content] in the config file: the
    turn comes to [rest] when the content parses; when it does not, the
    turn has ended before its prompt, in the error of the parse, with
    nothing shown and no key taken. *)
Definition after_parse {A} (content : string) (w : world)
           (rest : result A * world) : result A * world :=
  match parse (universal_newlines content) with
  | Ok _ => rest
  | Raise e => (Raise e, w)
  end.

Definition no_dot (c : ascii) : bool := negb (Ascii.eqb c ".").

(** The answers [yes] takes for yes and for no. *)
Definition says_yes (answer : string) : bool :=
  let a := lower (strip answer) in
  String.eqb a "y" || String.eqb a "yes" || String.eqb a "".

Definition says_no (answer : string) : bool :=
  let a := lower (strip answer) in
  String.eqb a "n" || String.eqb a "no".

(** The question [add_host] puts before it overwrites. *)
Definition overwrite_question (host : string) : output :=
  Err ("There is already a configuration for the host " ++ host
       ++ ", do you want to overwrite it? [Y/n] ") "".

(** The world once that question has been put and answered. *)
Definition asked (w : world) (host : string) (ks : list key) : world :=
  mkWorld (files w) ks (log w ++ [overwrite_question host; Ask ""])%list.

(** The records [add_host] keeps when it overwrites the ones of [host]. *)
Definition kept (host : string) (hosts : list SSHConfig) : list SSHConfig :=
  List.filter (fun h => negb (String.eqb (hostname h) host)) hosts.

(** A computation that takes nothing from the keys still to be typed. *)
Definition keeps_keys {A} (m : M A) : Prop :=
  forall w, keys (snd (m w)) = keys w.

Definition sample_home : string := "/home/u".

(** An operating system in which every command exits with code 0 and
    [ssh-keygen] leaves the two key files. *)
Definition sample_exec (argv : list string) (fs : gmap string string)
  : proc_result * gmap string string :=
  match argv with
  | [ "ssh-keygen"; _; _; _; _; _; key_file; _ ] =>
      (Exited 0 "" "",
       <[ (key_file ++ ".pub")%string := "ssh-ed25519 AAAA key for a.com" ]>
         (<[ key_file := "PRIVATE KEY" ]> fs))
  | _ => (Exited 0 "" "", fs)
  end.

(** A terminal library that takes every text as markup. *)
Definition sample_markup_ok (text : string) : bool := true.

Definition web : SSHConfig :=
  mkSSHConfig "web" "web.example.com" "admin" 22 "/k/web".

Definition db : SSHConfig :=
  mkSSHConfig "db" "10.0.0.7" "root" 2222 "/k/db".

Definition old_a : SSHConfig :=
  mkSSHConfig "a" "a.com" "admin" 22 "/home/u/.ssh/keys/a_com".

(** A world whose config file holds [content], with [ks] still to be
    typed and nothing shown yet. *)
Definition sample_world (content : string) (ks : list key) : world :=
  mkWorld {[ CONFIG_FILE sample_home := content ]} ks [].

(** One block whose port is 0, one whose port is 70000, and one whose
    Port line holds no number. *)
Definition port_zero_file : string :=
  "Host web" ++ nl_tab "Hostname web.example.com" ++ nl_tab "User admin"
  ++ nl_tab "Port 0" ++ nl_tab "IdentityFile /k/web" ++ chr LF.

Definition port_large_file : string :=
  "Host web" ++ nl_tab "Hostname web.example.com" ++ nl_tab "User admin"
  ++ nl_tab "Port 70000" ++ nl_tab "IdentityFile /k/web" ++ chr LF.

Definition port_word_file : string :=
  "Host web" ++ nl_tab "Hostname web.example.com" ++ nl_tab "User admin"
  ++ nl_tab "Port ssh" ++ nl_tab "IdentityFile /k/web" ++ chr LF.

(** One block whose Port field has one digit more than [int] converts;
    and that block behind a comment and a good block. *)
Definition port_long_file : string :=
  "Host big" ++ nl_tab "Hostname big.example.com" ++ nl_tab "User admin"
  ++ nl_tab "Port " ++ str_repeat "1" (S int_max_str_digits)
  ++ nl_tab "IdentityFile /k/big" ++ chr LF.

Definition untidy_long_file : string :=
  "# my hosts" ++ chr LF ++ block web ++ port_long_file.

(** A file with a comment, a block that lacks its User line, a block
    indented by blanks, and one good block. *)
Definition untidy_file : string :=
  "# my hosts" ++ chr LF ++
  "Host nouser" ++ nl_tab "Hostname n.example.com" ++ nl_tab "Port 22"
  ++ nl_tab "IdentityFile /k/n" ++ String LF (chr LF) ++
  "Host blanks" ++ String LF "    Hostname b.example.com"
  ++ String LF "    User admin" ++ String LF "    Port 22"
  ++ String LF "    IdentityFile /k/b" ++ String LF (chr LF) ++
  block web.


(** An alias the pattern can capture: a non-empty text without LF that
    does not begin with a blank, or the single blank. *)
Definition id_shape (s : string) : bool :=
  negb (String.eqb s "") && str_all dot s
  && (stops blank s || String.eqb s " ").

(** A record the parser can produce: like a well-formed one, but the
    alias may hold white space. *)
Definition parsed_shape (config : SSHConfig) : bool :=
  id_shape (ID config) && token (hostname config) && token (user config)
  && convertible (port config) && token (key_file config).

Definition not_H (c : ascii) : bool := negb (Ascii.eqb c "H").

(** A file with two blanks after [Host], an alias of two words, blanks
    before the port and leading zeros in it. *)
Definition loose_file : string :=
  "Host  my box" ++ nl_tab "Hostname   web.example.com" ++ nl_tab "User admin"
  ++ nl_tab "Port   0022" ++ nl_tab "IdentityFile /k/web".

Definition my_box : SSHConfig :=
  mkSSHConfig "my box" "web.example.com" "admin" 22 "/k/web".

(** ** run.py *)

(** The echo loop of [run.py], for at most [turns] turns: each line that
    is read is printed back.  Nothing is caught, so the loop ends with the
    exception of [session.prompt]; [None] when the turns did not suffice. *)
Fixpoint run_loop (turns : nat) : M (option unit) :=
  match turns with
  | O => ret None
  | S n =>
      text <- prompt ">>> " ;;
      print ("You said: " ++ text) ;;
      run_loop n
  end.

(** What the echo loop shows for the lines it reads. *)
Definition echoes (texts : list string) : list output :=
  flat_map (fun text => [Ask ">>> "; Out ("You said: " ++ text)]) texts.

(** The exception [session.prompt] raises on the keys [ks], when they do
    not begin with a line. *)
Definition prompt_error (ks : list key) : exn :=
  match ks with
  | CtrlC :: _ => KeyboardInterrupt
  | _ => EOFError
  end.

(** The keys begin with something that is not a line. *)
Definition no_line_first (ks : list key) : bool :=
  match ks with
  | Line _ :: _ => false
  | _ => true
  end.

(** A computation that leaves the files as they are. *)
Definition keeps_files {A} (m : M A) : Prop :=
  forall w, files (snd (m w)) = files w.

(** An answer [yes] does not take: it asks again. *)
Definition unrecognised (answer : string) : bool :=
  negb (says_yes answer) && negb (says_no answer).

(** The characters a decimal number may hold, and those of a number
    behind its sign. *)
Definition number_char (c : ascii) : bool :=
  is_digit c || Ascii.eqb c "_" || Ascii.eqb c "+" || Ascii.eqb c "-".

Definition digit_or_underscore (c : ascii) : bool :=
  is_digit c || Ascii.eqb c "_".

Definition no_blank (c : ascii) : bool := negb (Ascii.eqb c " ").

(** The rows of the table of [list_config]. *)
Definition table_rows (first : SSHConfig) (others : list SSHConfig)
  : list string :=
  map (fun host =>
         ljust (ID host) (id_width first others) "." ++ " | "
         ++ ljust (user host ++ "@" ++ hostname host)
                  (host_width first others) ".")
      (first :: others).

(** An operating system in which [ping] fails and everything else exits
    with code 0 without touching a file. *)
Definition unreachable_exec (argv : list string) (fs : gmap string string)
  : proc_result * gmap string string :=
  match argv with
  | "ping" :: _ => (Exited 2 "" "", fs)
  | _ => (Exited 0 "" "", fs)
  end.

(** An operating system in which [ssh] is interrupted and nothing else
    can be started. *)
Definition interrupted_exec (argv : list string) (fs : gmap string string)
  : proc_result * gmap string string :=
  match argv with
  | "ssh" :: _ => (Interrupted, fs)
  | _ => (NotStarted, fs)
  end.

(** What a line [configure <args>] shows: the defaults for [show], nothing
    for [set] with two more fields, and otherwise the complaint, which
    repeats the arguments. *)
Definition configure_shows (home args : string) : list output :=
  match split " " args with
  | first :: more =>
      if String.eqb first "show" then
        [ Out "Configured values for this script:";
          Out "  DEFAULT-USER : admin";
          Out "  DEFAULT-PORT : 22";
          Out ("  CONFIG-FILE  : " ++ home ++ "/.ssh/config");
          Out ("  SSH-KEY-DIR  : " ++ home ++ "/.ssh/keys") ]
      else if String.eqb first "set" && (List.length more =? 2)%nat then []
      else [ Err ("Invalid cmd for 'configure: " ++ args) (chr LF) ]
  | [] => []
  end.

(** What the loop shows of a child process that has exited. *)
Definition child_output (out err : string) : list output :=
  ((match out with EmptyString => [] | _ => [Out out] end)
   ++ (match err with EmptyString => [] | _ => [Err err (chr LF)] end))%list.

(* ================================================================== *)
(** * Properties *)

Local Open Scope string_scope.

(** ** Text *)

Lemma append_assoc (a b c : string) : (a ++ b) ++ c = a ++ (b ++ c).
Proof. induction a as [|x a IH]; simpl; [reflexivity | now rewrite IH]. Qed.

Lemma append_empty_r (a : string) : a ++ "" = a.
Proof. induction a as [|x a IH]; simpl; [reflexivity | now rewrite IH]. Qed.

Lemma length_append (a b : string) :
  String.length (a ++ b) = String.length a + String.length b.
Proof. induction a as [|x a IH]; simpl; [reflexivity | now rewrite IH]. Qed.

Lemma take_append (a b : string) :
  take (String.length (a ++ b) - String.length b) (a ++ b) = a.
Proof.
  rewrite length_append.
  replace (String.length a + String.length b - String.length b)
    with (String.length a) by lia.
  induction a as [|x a IH]; simpl.
  - now destruct b.
  - now rewrite IH.
Qed.

Lemma strip_prefix_append (l s : string) : strip_prefix l (l ++ s) = Some s.
Proof.
  induction l as [|x l IH]; simpl; [reflexivity|].
  now rewrite Ascii.eqb_refl.
Qed.

Lemma strip_prefix_inv (l s s' : string) :
  strip_prefix l s = Some s' -> s = l ++ s'.
Proof.
  revert s; induction l as [|x l IH]; simpl; intros s H.
  - congruence.
  - destruct s as [|y s]; [discriminate|].
    destruct (Ascii.eqb_spec x y) as [->|]; [|discriminate].
    now rewrite (IH _ H).
Qed.

Lemma str_all_append (p : ascii -> bool) (a b : string) :
  str_all p (a ++ b) = str_all p a && str_all p b.
Proof.
  induction a as [|x a IH]; simpl; [reflexivity|].
  now rewrite IH, andb_assoc.
Qed.

Lemma str_all_impl (p q : ascii -> bool) (s : string) :
  (forall c, p c = true -> q c = true) ->
  str_all p s = true -> str_all q s = true.
Proof.
  intros Hpq; induction s as [|x s IH]; simpl; [reflexivity|].
  intros [Hx Hs]%andb_true_iff. rewrite (Hpq _ Hx). now apply IH.
Qed.

Lemma token_nonempty (s : string) : token s = true -> s <> "".
Proof. now destruct s. Qed.

Lemma token_all (s : string) : token s = true -> str_all non_space s = true.
Proof. unfold token. now intros [_ H]%andb_true_iff. Qed.

Lemma lstrip_stops (s : string) : stops is_space s = true -> lstrip s = s.
Proof. destruct s as [|c s]; simpl; [reflexivity|]. now destruct (is_space c). Qed.

Lemma rstrip_non_space (s : string) :
  str_all non_space s = true -> rstrip s = s.
Proof.
  induction s as [|c s IH]; simpl; [reflexivity|].
  unfold non_space at 1. intros [Hc Hs]%andb_true_iff.
  rewrite (IH Hs). apply negb_true_iff in Hc. rewrite Hc.
  now destruct s.
Qed.

Lemma strip_non_space (s : string) :
  str_all non_space s = true -> strip s = s.
Proof.
  intros H. unfold strip. rewrite lstrip_stops.
  - now apply rstrip_non_space.
  - destruct s as [|c s]; [reflexivity|]. simpl in *.
    now apply andb_true_iff in H as [H _].
Qed.

(** ** Decimal text *)

(** A property of one character, by looking at each of them. *)
Ltac each_ascii c :=
  destruct c as [[] [] [] [] [] [] [] []]; try discriminate.

Lemma digit_non_space (c : ascii) : is_digit c = true -> non_space c = true.
Proof.
  each_ascii c; reflexivity.
Qed.

Lemma digit_no_sign (c : ascii) :
  is_digit c = true ->
  Ascii.eqb c "-" = false /\ Ascii.eqb c "+" = false /\ Ascii.eqb c "_" = false.
Proof.
  each_ascii c; now repeat split.
Qed.

Lemma digit_uint (c : ascii) (d : Decimal.uint) :
  is_digit c = true -> exists d', uint_of_char c (Some d) = Some d'.
Proof.
  each_ascii c; intros _; eexists; reflexivity.
Qed.

Lemma digits_uint (s : string) :
  str_all is_digit s = true -> exists u, NilEmpty.uint_of_string s = Some u.
Proof.
  induction s as [|c s IH]; simpl.
  - now eexists.
  - intros [Hc Hs]%andb_true_iff. destruct (IH Hs) as [u ->].
    now apply digit_uint.
Qed.

Lemma drop_underscores_digits (b : bool) (c : ascii) (s : string) :
  str_all is_digit (String c s) = true ->
  drop_underscores b (String c s) = Some (String c s).
Proof.
  revert b c; induction s as [|c' s IH]; intros b c; simpl.
  - intros [Hc _]%andb_true_iff.
    destruct (digit_no_sign c Hc) as (_ & _ & ->). reflexivity.
  - intros [Hc Hs]%andb_true_iff.
    destruct (digit_no_sign c Hc) as (_ & _ & ->).
    specialize (IH true c' Hs). simpl in IH. now rewrite IH.
Qed.

Lemma int_space_space (c : ascii) : is_int_space c = true -> is_space c = true.
Proof.
  each_ascii c; reflexivity.
Qed.

Lemma skip_leading_stops (s : string) :
  stops is_space s = true -> skip_leading s = s.
Proof.
  destruct s as [|c s]; simpl; [reflexivity|].
  intros Hc%negb_true_iff.
  destruct (is_int_space c) eqn:E; [|reflexivity].
  apply int_space_space in E. congruence.
Qed.

Lemma skip_trailing_rstrip (s : string) : rstrip s = s -> skip_trailing s = s.
Proof.
  induction s as [|c s IH]; simpl; [reflexivity|].
  destruct (rstrip s) as [|c' r] eqn:E.
  - destruct (is_space c) eqn:Hc; [discriminate|].
    intros [= <-]. simpl.
    destruct (is_int_space c) eqn:Hi; [|reflexivity].
    apply int_space_space in Hi. congruence.
  - intros [= Hs]. rewrite (IH Hs). now rewrite <- Hs.
Qed.

(** What [str.strip] leaves has no white space of [int] at its ends. *)
Lemma skip_non_space (s : string) :
  str_all non_space s = true -> skip_trailing (skip_leading s) = s.
Proof.
  intros H. rewrite skip_leading_stops.
  - now apply skip_trailing_rstrip, rstrip_non_space.
  - destruct s as [|c s]; [reflexivity|]. simpl in *.
    now apply andb_true_iff in H as [H _].
Qed.

(** [int] on a non-empty run of decimal digits: the value, which is not
    negative, when the run is within the limit, and a [ValueError] when
    it is longer. *)
Lemma int_run (s : string) :
  s <> "" -> str_all is_digit s = true ->
  exists u, NilZero.uint_of_string s = Some u
            /\ int s = if (String.length s <=? int_max_str_digits)%nat
                       then Ok (Z.of_uint u) else Raise ValueError.
Proof.
  intros Hne Hd. destruct s as [|c s]; [congruence|].
  destruct (digits_uint _ Hd) as [u Hu]. exists u. split; [exact Hu|].
  unfold int. rewrite skip_non_space
    by (eapply str_all_impl; [apply digit_non_space | exact Hd]).
  pose proof Hd as Hd'. simpl in Hd'. apply andb_true_iff in Hd' as [Hc _].
  destruct (digit_no_sign c Hc) as (-> & -> & _).
  rewrite (drop_underscores_digits _ _ _ Hd).
  change (NilZero.uint_of_string (String c s))
    with (NilEmpty.uint_of_string (String c s)).
  now rewrite Hu.
Qed.

Lemma int_digits (s : string) :
  s <> "" -> str_all is_digit s = true ->
  String.length s <= int_max_str_digits ->
  exists u, NilZero.uint_of_string s = Some u /\ int s = Ok (Z.of_uint u).
Proof.
  intros Hne Hd Hlen. destruct (int_run s Hne Hd) as (u & Hu & Hi).
  exists u. split; [exact Hu|].
  apply Nat.leb_le in Hlen. now rewrite Hlen in Hi.
Qed.

Lemma int_overlong (s : string) :
  str_all is_digit s = true -> int_max_str_digits < String.length s ->
  int s = Raise ValueError.
Proof.
  intros Hd Hlen.
  assert (Hne : s <> "") by (destruct s; [simpl in Hlen; lia | discriminate]).
  destruct (int_run s Hne Hd) as (u & _ & Hi).
  apply Nat.leb_gt in Hlen. now rewrite Hlen in Hi.
Qed.

Lemma of_uint_nonneg (u : Decimal.uint) : (0 <= Z.of_uint u)%Z.
Proof. unfold Z.of_uint. apply N2Z.is_nonneg. Qed.

Lemma string_of_uint_digits (d : Decimal.uint) :
  str_all is_digit (NilEmpty.string_of_uint d) = true.
Proof. induction d; simpl; auto. Qed.

Lemma length_string_of_uint (d : Decimal.uint) :
  String.length (NilEmpty.string_of_uint d) = Decimal.nb_digits d.
Proof. induction d; simpl; auto. Qed.

(** The value of a run of digits prints in no more digits than the run
    has: leading zeros go. *)
Lemma str_of_int_of_uint (s : string) (u : Decimal.uint) :
  s <> "" -> NilZero.uint_of_string s = Some u ->
  String.length (str_of_int (Z.of_uint u)) <= String.length s.
Proof.
  intros Hne Hu. destruct s as [|c s]; [congruence|].
  change (NilZero.uint_of_string (String c s))
    with (NilEmpty.uint_of_string (String c s)) in Hu.
  apply NilEmpty.sus in Hu.
  assert (Hnil : u <> Decimal.Nil) by (intros ->; discriminate).
  rewrite <- Hu, length_string_of_uint.
  unfold str_of_int.
  change (Z.of_uint u) with (Z.of_int (Decimal.Pos u)).
  rewrite DecimalZ.to_of. simpl Decimal.norm. simpl NilZero.string_of_int.
  pose proof (DecimalFacts.nb_digits_unorm u Hnil) as Hle.
  destruct (Decimal.unorm u) eqn:E; simpl;
    try (rewrite length_string_of_uint; exact Hle).
  destruct u; simpl; [congruence|lia..].
Qed.

(** The decimal text of a number that is not negative. *)
Lemma str_of_int_digits (n : Z) :
  (0 <= n)%Z ->
  str_of_int n <> "" /\ str_all is_digit (str_of_int n) = true
  /\ (String.length (str_of_int n) <= int_max_str_digits ->
      int (str_of_int n) = Ok n).
Proof.
  intros Hn. unfold str_of_int.
  destruct n as [|p|p]; [now repeat split | | lia].
  simpl Z.to_int. simpl NilZero.string_of_int.
  pose proof (DecimalPos.Unsigned.to_uint_nonnil p) as Hnil.
  assert (Hs : NilZero.string_of_uint (Pos.to_uint p)
               = NilEmpty.string_of_uint (Pos.to_uint p))
    by (now destruct (Pos.to_uint p)).
  assert (Hne : NilZero.string_of_uint (Pos.to_uint p) <> "").
  { rewrite Hs. destruct (Pos.to_uint p); simpl; congruence. }
  assert (Hd : str_all is_digit (NilZero.string_of_uint (Pos.to_uint p)) = true)
    by (rewrite Hs; apply string_of_uint_digits).
  repeat split; [exact Hne | exact Hd |].
  intros Hlen. destruct (int_digits _ Hne Hd Hlen) as (u & Hu & ->).
  rewrite (NilZero.usu _ Hnil) in Hu. injection Hu as <-.
  f_equal. exact (DecimalZ.of_to (Z.pos p)).
Qed.

Lemma convertible_text (n : Z) :
  convertible n = true ->
  (0 <= n)%Z /\ str_of_int n <> "" /\ str_all is_digit (str_of_int n) = true
  /\ int (str_of_int n) = Ok n.
Proof.
  unfold convertible. intros [Hn%Z.leb_le Hlen%Nat.leb_le]%andb_true_iff.
  destruct (str_of_int_digits n Hn) as (Hne & Hd & Hi). auto.
Qed.

(** What [int] makes of a run of digits within the limit reads back. *)
Lemma int_convertible (s : string) (z : Z) :
  s <> "" -> str_all is_digit s = true -> int s = Ok z -> convertible z = true.
Proof.
  intros Hne Hd Hi. destruct (int_run s Hne Hd) as (u & Hu & Hr).
  rewrite Hi in Hr.
  destruct (String.length s <=? int_max_str_digits)%nat eqn:Hlen;
    [|discriminate].
  injection Hr as ->. apply Nat.leb_le in Hlen.
  unfold convertible. apply andb_true_iff. split.
  - apply Z.leb_le, of_uint_nonneg.
  - apply Nat.leb_le.
    pose proof (str_of_int_of_uint s u Hne Hu). lia.
Qed.

(** Whatever [int] returns has no more digits than the limit, so the
    program never formats a longer number. *)
Lemma int_within_limit (s : string) (z : Z) :
  int s = Ok z ->
  String.length (str_of_int (Z.abs z)) <= int_max_str_digits.
Proof.
  unfold int.
  destruct (match skip_trailing (skip_leading s) with
            | String c r =>
                if Ascii.eqb c "-" then (true, r)
                else if Ascii.eqb c "+" then (false, r)
                else (false, skip_trailing (skip_leading s))
            | EmptyString => (false, skip_trailing (skip_leading s))
            end) as [negative body].
  destruct (drop_underscores false body) as [ds|]; [|discriminate].
  destruct (NilZero.uint_of_string ds) as [u|] eqn:Hu; [|discriminate].
  destruct (String.length ds <=? int_max_str_digits)%nat eqn:Hlen;
    [|discriminate].
  apply Nat.leb_le in Hlen. intros [= <-].
  assert (Hne : ds <> "") by (intros ->; discriminate).
  pose proof (str_of_int_of_uint ds u Hne Hu) as Hle.
  pose proof (of_uint_nonneg u) as Hz.
  destruct negative.
  - rewrite Z.abs_opp, Z.abs_eq by exact Hz. lia.
  - rewrite Z.abs_eq by exact Hz. lia.
Qed.

(** ** The engine on a text whose shape is known *)

Lemma lit_append (l s : string) (g : groupdict) (k : cont) :
  lit l (l ++ s) g k = k s g.
Proof. unfold lit. now rewrite strip_prefix_append. Qed.

Lemma plus_stops (p : ascii -> bool) (s : string) (g : groupdict) (k : cont) :
  stops p s = true -> plus p s g k = None.
Proof.
  destruct s as [|c s]; simpl; [reflexivity|].
  now intros ->%negb_true_iff.
Qed.

(** A greedy class takes the whole run when the rest then matches. *)
Lemma plus_run (p : ascii -> bool) (l s : string) (g : groupdict) (k : cont)
      (a : groupdict * string) :
  l <> "" -> str_all p l = true -> stops p s = true ->
  k s g = Some a ->
  plus p (l ++ s) g k = Some a.
Proof.
  intros Hne Hall Hstop Hk.
  induction l as [|c l IH]; [congruence|].
  simpl in Hall. apply andb_true_iff in Hall as [Hc Hl].
  simpl. rewrite Hc.
  destruct l as [|c' l].
  - simpl. now rewrite (plus_stops p s g k Hstop).
  - now rewrite IH.
Qed.

(** One line of a block: the label, blanks, a captured value. *)
Lemma field_run (label name : string) (p : ascii -> bool) (rest : re)
      (v s : string) (g : groupdict) (k : cont) (a : groupdict * string) :
  v <> "" -> str_all p v = true -> stops blank v = true ->
  stops p s = true ->
  rest s ((name, v) :: g) k = Some a ->
  (lit label ⋅ plus blank ⋅ named name (plus p) ⋅ rest)%re
    (label ++ " " ++ v ++ s) g k = Some a.
Proof.
  intros Hne Hall Hblank Hstop Hrest.
  unfold seq at 1. rewrite lit_append.
  unfold seq at 1.
  apply (plus_run blank " " (v ++ s)).
  - discriminate.
  - reflexivity.
  - destruct v; [congruence | exact Hblank].
  - unfold seq, named. apply plus_run; try assumption.
    now rewrite take_append.
Qed.

(** ** The engine on any text *)

Lemma lit_inv (l s : string) (g : groupdict) (k : cont) (a : groupdict * string) :
  lit l s g k = Some a -> exists s', s = l ++ s' /\ k s' g = Some a.
Proof.
  unfold lit. destruct (strip_prefix l s) as [s'|] eqn:E; [|discriminate].
  intros H. exists s'. split; [now apply strip_prefix_inv | exact H].
Qed.

Lemma plus_inv (p : ascii -> bool) (s : string) (g : groupdict) (k : cont)
      (a : groupdict * string) :
  plus p s g k = Some a ->
  exists l s', s = l ++ s' /\ l <> "" /\ str_all p l = true /\ k s' g = Some a.
Proof.
  induction s as [|c s IH]; simpl; [discriminate|].
  destruct (p c) eqn:Hc; [|discriminate].
  destruct (plus p s g k) as [a'|] eqn:E.
  - intros [= ->]. destruct (IH eq_refl) as (l & s' & -> & _ & Hl & Hk).
    exists (String c l), s'. simpl. now rewrite Hc, Hl.
  - intros Hk. exists (chr c), s. simpl. now rewrite Hc.
Qed.

Lemma opt_inv (c : ascii) (s : string) (g : groupdict) (k : cont)
      (a : groupdict * string) :
  opt c s g k = Some a ->
  exists e s', s = e ++ s' /\ (e = "" \/ e = chr c) /\ k s' g = Some a.
Proof.
  unfold opt. destruct s as [|c' s].
  - intros H. exists "", "". auto.
  - destruct (Ascii.eqb_spec c' c) as [->|].
    + destruct (k s g) as [a'|] eqn:E.
      * intros [= ->]. exists (chr c), s. auto.
      * intros H. exists "", (String c s). auto.
    + intros H. exists "", (String c' s). auto.
Qed.

Lemma field_inv (label name : string) (p : ascii -> bool) (rest : re)
      (s : string) (g : groupdict) (k : cont) (a : groupdict * string) :
  (lit label ⋅ plus blank ⋅ named name (plus p) ⋅ rest)%re s g k = Some a ->
  exists sp v s',
    s = label ++ sp ++ v ++ s'
    /\ sp <> "" /\ str_all blank sp = true
    /\ v <> "" /\ str_all p v = true
    /\ rest s' ((name, v) :: g) k = Some a.
Proof.
  unfold seq at 1. intros (s1 & -> & H)%lit_inv.
  unfold seq at 1 in H. apply plus_inv in H as (sp & s2 & -> & Hsp & Hbl & H).
  unfold seq, named in H. apply plus_inv in H as (v & s3 & -> & Hv & Hp & H).
  rewrite take_append in H.
  exists sp, v, s3. repeat split; assumption.
Qed.

Lemma plus_some (p : ascii -> bool) (l s : string) (g : groupdict) (k : cont) :
  l <> "" -> str_all p l = true -> k s g <> None ->
  plus p (l ++ s) g k <> None.
Proof.
  intros Hne Hall Hk.
  induction l as [|c l IH]; [congruence|].
  simpl in Hall. apply andb_true_iff in Hall as [Hc Hl].
  simpl. rewrite Hc.
  destruct (plus p (l ++ s) g k) eqn:E; [discriminate|].
  destruct l as [|c' l]; [exact Hk|].
  exfalso. now apply IH.
Qed.

Lemma field_some (label name : string) (p : ascii -> bool) (rest : re)
      (sp v s : string) (k : cont) :
  sp <> "" -> str_all blank sp = true ->
  v <> "" -> str_all p v = true ->
  accepts rest k s ->
  accepts (lit label ⋅ plus blank ⋅ named name (plus p) ⋅ rest)%re k
          (label ++ sp ++ v ++ s).
Proof.
  intros Hsp Hbl Hv Hp Hrest g.
  unfold seq at 1. rewrite lit_append.
  unfold seq at 1. apply plus_some; try assumption.
  unfold seq, named. apply plus_some; try assumption.
  apply Hrest.
Qed.

(** ** Blocks *)

Lemma token_intro (s : string) :
  s <> "" -> str_all non_space s = true -> token s = true.
Proof. intros Hne Hs. unfold token. rewrite Hs. now destruct s. Qed.

Lemma block_text_nonempty (b : string) (config : SSHConfig) :
  block_text b config -> b <> "".
Proof. now destruct 1. Qed.

Lemma block_fields (config : SSHConfig) (tail : string) :
  block config ++ tail =
  "Host" ++ " " ++ ID config ++
  nl_tab "Hostname" ++ " " ++ hostname config ++
  nl_tab "User" ++ " " ++ user config ++
  nl_tab "Port" ++ " " ++ str_of_int (port config) ++
  nl_tab "IdentityFile" ++ " " ++ key_file config ++
  String LF (String LF tail).
Proof.
  unfold block, nl_tab, chr. repeat rewrite append_assoc. reflexivity.
Qed.

Lemma token_stops_blank (s : string) : token s = true -> stops blank s = true.
Proof.
  destruct s as [|c s]; [reflexivity|].
  intros H%token_all. simpl in *. apply andb_true_iff in H as [H _].
  revert H. clear.
  each_ascii c; reflexivity.
Qed.

Lemma non_space_dot (c : ascii) : non_space c = true -> dot c = true.
Proof.
  each_ascii c; reflexivity.
Qed.

(** Any text that a match has read has the five lines of a block, with a
    non-empty run of digits as its Port field.  When [int] converts that
    run, the text is a block and the groups give its record; when [int]
    refuses it, so does the body of the loop. *)
Lemma match_at_block_text (s rest : string) (m : groupdict) :
  match_at SSH_KEY_FILE_REGEX s = Some (m, rest) ->
  exists b p,
    s = b ++ rest /\ b <> "" /\ group m "port" = Ok p /\ p <> ""
    /\ str_all is_digit p = true
    /\ match int p with
       | Ok z => exists config, block_text b config
                                /\ config_of_match m = Ok config
                                /\ port config = z
       | Raise e => config_of_match m = Raise e
       end.
Proof.
  unfold match_at, SSH_KEY_FILE_REGEX. intros H.
  apply field_inv in H as (sp1 & id & s1 & -> & ? & ? & ? & ? & H).
  apply field_inv in H as (sp2 & h & s2 & -> & ? & ? & ? & ? & H).
  apply field_inv in H as (sp3 & u & s3 & -> & ? & ? & ? & ? & H).
  apply field_inv in H as (sp4 & p & s4 & -> & ? & ? & Hp & Hd & H).
  unfold seq at 1 in H. apply lit_inv in H as (s5 & -> & H).
  unfold seq at 1 in H. apply plus_inv in H as (sp5 & s6 & -> & ? & ? & H).
  unfold seq, named in H. apply plus_inv in H as (kf & s7 & -> & ? & ? & H).
  rewrite take_append in H.
  apply opt_inv in H as (e & s8 & -> & He & [= <- <-]).
  exists ("Host" ++ sp1 ++ id ++ nl_tab "Hostname" ++ sp2 ++ h ++
          nl_tab "User" ++ sp3 ++ u ++ nl_tab "Port" ++ sp4 ++ p ++
          nl_tab "IdentityFile" ++ sp5 ++ kf ++ e), p.
  split; [now repeat rewrite append_assoc|].
  split; [discriminate|].
  split; [reflexivity|].
  split; [exact Hp|]. split; [exact Hd|].
  destruct (int p) as [z|err] eqn:Hi.
  - exists (mkSSHConfig id h u z kf).
    split; [constructor; unfold blanks; auto using token_intro|].
    split; [unfold config_of_match; simpl; now rewrite Hi | reflexivity].
  - unfold config_of_match. simpl. now rewrite Hi.
Qed.

(** Wherever a block starts, the pattern matches. *)
Lemma block_text_matches (b rest : string) (config : SSHConfig) :
  block_text b config -> match_at SSH_KEY_FILE_REGEX (b ++ rest) <> None.
Proof.
  intros [sp1 id sp2 h sp3 u sp4 p sp5 kf e n
            [? ?] ? ? [? ?] Hh [? ?] Hu [? ?] ? ? _ [? ?] Hkf He].
  repeat rewrite append_assoc.
  unfold match_at, SSH_KEY_FILE_REGEX.
  apply field_some; try assumption.
  apply field_some; auto using token_nonempty, token_all.
  apply field_some; auto using token_nonempty, token_all.
  apply field_some; try assumption.
  intros g. unfold seq at 1. rewrite lit_append.
  unfold seq at 1. apply plus_some; try assumption.
  unfold seq, named.
  apply plus_some; auto using token_nonempty, token_all.
  unfold opt. destruct (e ++ rest) as [|c r]; [discriminate|].
  destruct (Ascii.eqb c LF); discriminate.
Qed.

(** The match at the front of a serialized record. *)
Lemma match_at_block (config : SSHConfig) (tail : string) :
  well_formed config = true ->
  match_at SSH_KEY_FILE_REGEX (block config ++ tail)
  = Some (groups_of config, String LF tail).
Proof.
  unfold well_formed.
  intros [[[[Hid Hh]%andb_true_iff Hu]%andb_true_iff Hp]%andb_true_iff
            Hk]%andb_true_iff.
  destruct (convertible_text _ Hp) as (_ & Hpne & Hpd & _).
  rewrite block_fields. unfold match_at, SSH_KEY_FILE_REGEX.
  apply field_run; auto using token_nonempty, token_stops_blank.
  { eapply str_all_impl; [apply non_space_dot | now apply token_all]. }
  apply field_run; auto using token_nonempty, token_stops_blank, token_all.
  apply field_run; auto using token_nonempty, token_stops_blank, token_all.
  apply field_run; auto.
  { apply token_stops_blank, token_intro; [exact Hpne|].
    eapply str_all_impl; [apply digit_non_space | exact Hpd]. }
  unfold seq at 1. rewrite lit_append.
  unfold seq at 1. apply (plus_run blank " ").
  { discriminate. }
  { reflexivity. }
  { apply token_stops_blank in Hk. now destruct (key_file config). }
  unfold seq, named.
  apply plus_run; auto using token_nonempty, token_all.
  rewrite take_append. reflexivity.
Qed.

(** ** The scan *)

Lemma scan_inside (r : re) (l s : string) :
  scan r (String.length l) (l ++ s) = scan r O s.
Proof. induction l as [|c l IH]; simpl; [reflexivity | exact IH]. Qed.

(** After a match the scan goes on behind it. *)
Lemma scan_match (r : re) (b rest : string) (m : groupdict) :
  b <> "" -> match_at r (b ++ rest) = Some (m, rest) ->
  scan r O (b ++ rest) = m :: scan r O rest.
Proof.
  destruct b as [|c b]; [congruence|]. intros _ H.
  simpl in *. rewrite H. f_equal.
  rewrite length_append.
  replace (String.length b + String.length rest - String.length rest)
    with (String.length b) by lia.
  apply scan_inside.
Qed.

Lemma scan_skip (r : re) (c : ascii) (s : string) :
  match_at r (String c s) = None -> scan r O (String c s) = scan r O s.
Proof. intros H. simpl. now rewrite H. Qed.

(** When parsing succeeds its records are the blocks of the text in the
    order of the text. *)
Lemma parse_blocks (content : string) (cs : list SSHConfig) :
  parse content = Ok cs -> blocks_of content cs.
Proof.
  remember (String.length content) as n eqn:Hn.
  revert content cs Hn.
  induction n as [n IH] using lt_wf_ind. intros content cs -> Hp.
  destruct content as [|c s].
  - injection Hp as <-. constructor.
  - destruct (match_at SSH_KEY_FILE_REGEX (String c s)) as [[m rest]|] eqn:E.
    + destruct (match_at_block_text _ _ _ E)
        as (b & p & Hs & Hne & _ & _ & _ & Hconv).
      rewrite Hs in E, Hp |- *.
      unfold parse, finditer in Hp. rewrite (scan_match _ _ _ _ Hne E) in Hp.
      simpl in Hp.
      destruct (int p) as [z|err]; [|rewrite Hconv in Hp; discriminate].
      destruct Hconv as (config & Hb & Hc & _). rewrite Hc in Hp. simpl in Hp.
      destruct (configs_of_matches (scan SSH_KEY_FILE_REGEX 0 rest))
        as [cs'|] eqn:Hcs; [|discriminate].
      injection Hp as <-.
      apply (blocks_block b rest m); auto.
      apply (IH (String.length rest)); [|reflexivity|exact Hcs].
      rewrite Hs, length_append. destruct b; [congruence | simpl; lia].
    + constructor; [exact E| |].
      * intros b rest config Hs Hb. rewrite Hs in E.
        now apply (block_text_matches b rest config).
      * apply (IH (String.length s)); [simpl; lia | reflexivity |].
        unfold parse, finditer in *. now rewrite scan_skip in Hp.
Qed.

(** The blocks of a text are what parsing it gives. *)
Lemma blocks_of_parse (content : string) (cs : list SSHConfig) :
  blocks_of content cs -> parse content = Ok cs.
Proof.
  unfold parse, finditer.
  induction 1 as [|c s cs E _ _ IH|b rest m config cs E Hb Hc _ IH].
  - reflexivity.
  - now rewrite scan_skip.
  - rewrite (scan_match _ _ _ _ (block_text_nonempty _ _ Hb) E).
    simpl. now rewrite Hc, IH.
Qed.

(** What a match hands to [int] is a non-empty run of digits, and the
    body of the loop ends as [int] does on it. *)
Lemma scan_ports (n : nat) (content : string) (m : groupdict) :
  In m (scan SSH_KEY_FILE_REGEX n content) ->
  exists p, group m "port" = Ok p /\ p <> "" /\ str_all is_digit p = true
            /\ match int p with
               | Ok z => exists config, config_of_match m = Ok config
                                        /\ port config = z
               | Raise e => config_of_match m = Raise e
               end.
Proof.
  revert n; induction content as [|c s IH]; intros n.
  - destruct n; simpl; [|now intros []].
    replace (match_at SSH_KEY_FILE_REGEX "") with (@None (groupdict * string))
      by reflexivity.
    now intros [].
  - destruct n as [|n]; simpl; [|apply IH].
    destruct (match_at SSH_KEY_FILE_REGEX (String c s)) as [[m' rest]|] eqn:E;
      [|apply IH].
    intros [<-|Hin]; [|eapply IH; exact Hin].
    destruct (match_at_block_text _ _ _ E)
      as (b & p & _ & _ & Hg & Hne & Hd & Hconv).
    exists p. repeat split; try assumption.
    destruct (int p); [|exact Hconv].
    destruct Hconv as (config & _ & Hc & Hz). now exists config.
Qed.

Lemma overlong_refused (p : string) :
  p <> "" -> str_all is_digit p = true ->
  match int p with
  | Ok z => overlong p = false /\ convertible z = true
  | Raise e => e = ValueError /\ overlong p = true
  end.
Proof.
  intros Hne Hd. destruct (int_run p Hne Hd) as (u & _ & Hi).
  unfold overlong.
  destruct (String.length p <=? int_max_str_digits)%nat eqn:Hlen; rewrite Hi.
  - split; [apply Nat.ltb_ge; now apply Nat.leb_le|].
    apply (int_convertible p); [exact Hne | exact Hd|].
    rewrite Hi. reflexivity.
  - split; [reflexivity|]. apply Nat.ltb_lt. now apply Nat.leb_gt.
Qed.

(** The loop over the matches: each record has the value of the Port
    field of its match, and the loop fails, with a [ValueError], exactly
    when one of the Port fields is too long for [int]. *)
Lemma configs_outcome (ms : list groupdict) :
  (forall m, In m ms ->
     exists p, group m "port" = Ok p /\ p <> "" /\ str_all is_digit p = true
               /\ match int p with
                  | Ok z => exists config, config_of_match m = Ok config
                                           /\ port config = z
                  | Raise e => config_of_match m = Raise e
                  end) ->
  let ports := flat_map (fun m => match group m "port" with
                                  | Ok p => [p]
                                  | Raise _ => []
                                  end) ms in
  match configs_of_matches ms with
  | Ok cs =>
      existsb overlong ports = false
      /\ Forall2 (fun p config => p <> "" /\ str_all is_digit p = true
                                  /\ int p = Ok (port config)
                                  /\ convertible (port config) = true)
                 ports cs
  | Raise e => e = ValueError /\ existsb overlong ports = true
  end.
Proof.
  induction ms as [|m ms IH]; intros Hall; simpl.
  - split; [reflexivity | constructor].
  - destruct (Hall m (or_introl eq_refl)) as (p & Hg & Hne & Hd & Hconv).
    rewrite Hg. simpl.
    pose proof (overlong_refused p Hne Hd) as Hp.
    assert (Hrest := IH (fun m' Hm' => Hall m' (or_intror Hm'))).
    simpl in Hrest.
    destruct (int p) as [z|err] eqn:Hi.
    + destruct Hconv as (config & -> & <-). destruct Hp as [-> Hz]. simpl.
      destruct (configs_of_matches ms) as [cs|e]; simpl.
      * destruct Hrest as [Hno Hall2]. split; [exact Hno|].
        constructor; auto.
      * exact Hrest.
    + rewrite Hconv. destruct Hp as [-> ->]. simpl. now split.
Qed.

(** Parsing, by its outcome. *)
Lemma parse_outcome (content : string) :
  match parse content with
  | Ok cs =>
      existsb overlong (port_fields content) = false
      /\ Forall2 (fun p config => p <> "" /\ str_all is_digit p = true
                                  /\ int p = Ok (port config)
                                  /\ convertible (port config) = true)
                 (port_fields content) cs
  | Raise e => e = ValueError /\ existsb overlong (port_fields content) = true
  end.
Proof.
  unfold parse, port_fields. apply configs_outcome.
  intros m. apply scan_ports.
Qed.

(** ** Writing, then reading *)

Lemma config_of_groups (config : SSHConfig) :
  convertible (port config) = true ->
  config_of_match (groups_of config) = Ok config.
Proof.
  intros Hp. unfold config_of_match, groups_of. simpl.
  destruct (convertible_text _ Hp) as (_ & _ & _ & ->). simpl.
  now destruct config.
Qed.

Lemma well_formed_port (config : SSHConfig) :
  well_formed config = true -> convertible (port config) = true.
Proof.
  unfold well_formed.
  intros [[_ Hp]%andb_true_iff _]%andb_true_iff. exact Hp.
Qed.

Lemma parse_serialize (data : list SSHConfig) :
  Forall (fun config => well_formed config = true) data ->
  parse (serialize data) = Ok data.
Proof.
  induction 1 as [|config data Hwf _ IH]; [reflexivity|].
  change (serialize (config :: data)) with (block config ++ serialize data).
  pose proof (match_at_block config (serialize data) Hwf) as E.
  destruct (match_at_block_text _ _ _ E) as (b & p & Hs & Hb & _).
  unfold parse, finditer in *.
  rewrite Hs in E |- *.
  rewrite (scan_match _ _ _ _ Hb E).
  rewrite scan_skip by reflexivity.
  simpl. rewrite (config_of_groups _ (well_formed_port _ Hwf)). simpl.
  now rewrite IH.
Qed.

Lemma universal_newlines_id (s : string) :
  str_all no_cr s = true -> universal_newlines s = s.
Proof.
  induction s as [|c s IH]; simpl; [reflexivity|].
  unfold no_cr at 1. intros [Hc Hs]%andb_true_iff.
  apply negb_true_iff in Hc. rewrite Hc. now rewrite IH.
Qed.

Lemma non_space_no_cr (c : ascii) : non_space c = true -> no_cr c = true.
Proof.
  each_ascii c; reflexivity.
Qed.

Lemma token_no_cr (s : string) : token s = true -> str_all no_cr s = true.
Proof.
  intros H%token_all. eapply str_all_impl; [apply non_space_no_cr | exact H].
Qed.

Lemma serialize_no_cr (data : list SSHConfig) :
  Forall (fun config => well_formed config = true) data ->
  str_all no_cr (serialize data) = true.
Proof.
  induction 1 as [|config data Hwf _ IH]; [reflexivity|].
  change (serialize (config :: data)) with (block config ++ serialize data).
  rewrite str_all_append, IH, andb_true_r.
  pose proof (well_formed_port _ Hwf) as Hp.
  destruct (convertible_text _ Hp) as (_ & _ & Hd & _).
  revert Hwf. unfold well_formed.
  intros [[[[Hid Hh]%andb_true_iff Hu]%andb_true_iff _]%andb_true_iff
            Hk]%andb_true_iff.
  unfold block. repeat rewrite str_all_append.
  rewrite (token_no_cr _ Hid), (token_no_cr _ Hh), (token_no_cr _ Hu),
    (token_no_cr _ Hk).
  rewrite (str_all_impl is_digit no_cr _
             (fun c H => non_space_no_cr c (digit_non_space c H)) Hd).
  reflexivity.
Qed.

(** ** Running the effects *)

Lemma file_to_dataclass_run (file content : string) (w : world) :
  files w !! file = Some content ->
  file_to_dataclass file w = (parse (universal_newlines content), w).
Proof.
  intros Hf. unfold file_to_dataclass, bind, read_file, lift. rewrite Hf.
  now destruct (parse (universal_newlines content)).
Qed.

Lemma for_each_print {A} (f : A -> string) (l : list A) (w : world) :
  for_each l (fun x => print (f x)) w
  = (Ok tt, mkWorld (files w) (keys w) (log w ++ map (fun x => Out (f x)) l)%list).
Proof.
  revert w; induction l as [|x l IH]; intros [fs ks lg]; simpl.
  - unfold ret. now rewrite app_nil_r.
  - unfold bind, print, show. simpl. rewrite IH. simpl.
    now rewrite <- app_assoc.
Qed.

Section Listing.

Variable home : string.

Lemma list_config_empty (content : string) (w : world) :
  files w !! CONFIG_FILE home = Some content ->
  parse (universal_newlines content) = Ok [] ->
  list_config home w = (Raise ValueError, w).
Proof.
  intros Hf Hp. unfold list_config, bind.
  rewrite (file_to_dataclass_run _ _ _ Hf), Hp. reflexivity.
Qed.

Lemma list_config_hosts (content : string) (w : world)
      (first : SSHConfig) (others : list SSHConfig) :
  files w !! CONFIG_FILE home = Some content ->
  parse (universal_newlines content) = Ok (first :: others) ->
  list_config home w
  = (Ok tt, mkWorld (files w) (keys w) (log w ++ listing first others)%list).
Proof.
  intros Hf Hp. unfold list_config, bind at 1.
  rewrite (file_to_dataclass_run _ _ _ Hf), Hp.
  unfold bind, lift, py_max, print, show, ret. simpl map.
  fold (id_width first others). fold (host_width first others).
  cbv beta iota. simpl files. simpl keys. simpl log.
  pose proof (for_each_print
    (fun host => ljust (ID host) (id_width first others) "." ++ " | "
                 ++ ljust (user host ++ "@" ++ hostname host)
                          (host_width first others) ".")
    (first :: others)) as Hfor.
  unfold print, show in Hfor. rewrite Hfor. simpl files. simpl keys. simpl log.
  unfold listing. repeat rewrite <- app_assoc. reflexivity.
Qed.

End Listing.

(** ** The dispatcher *)

Lemma prefix_take_while (c text : string) :
  str_all non_space c = true -> String.prefix c text = true ->
  String.prefix c (take_while non_space text) = true.
Proof.
  revert text; induction c as [|a c IH]; intros text; simpl.
  - now destruct (take_while non_space text).
  - intros [Ha Hc]%andb_true_iff. destruct text as [|b t]; [discriminate|].
    simpl. destruct (ascii_dec a b) as [<-|]; [|discriminate].
    rewrite Ha. simpl. intros H.
    destruct (ascii_dec a a); [|congruence]. now apply IH.
Qed.

Lemma startswith_first_token (text c : string) :
  token c = true -> startswith text c = true ->
  startswith (first_token text) c = true.
Proof.
  intros Hc Hp. unfold startswith, first_token in *.
  pose proof (token_all _ Hc) as Hall.
  assert (lstrip text = text) as ->.
  { destruct c as [|a c]; [discriminate|].
    destruct text as [|b t]; [discriminate|].
    simpl in Hp. destruct (ascii_dec a b) as [<-|]; [|discriminate].
    simpl in Hall. apply andb_true_iff in Hall as [Ha _].
    unfold non_space in Ha. apply negb_true_iff in Ha. simpl. now rewrite Ha. }
  now apply prefix_take_while.
Qed.

Lemma names_command_first_token (text : string) :
  names_command (first_token text) = false -> names_command text = false.
Proof.
  intros H. destruct (names_command text) eqn:E; [|reflexivity].
  rewrite <- H. symmetry.
  unfold names_command in *. apply existsb_exists in E as (c & Hin & Hc).
  apply existsb_exists. exists c. split; [exact Hin|].
  apply startswith_first_token; [|exact Hc].
  unfold COMMANDS in Hin. simpl in Hin.
  repeat (destruct Hin as [<-|Hin]; [reflexivity|]). contradiction.
Qed.

Lemma names_command_leading_space (c : ascii) (t : string) :
  is_space c = true -> names_command (String c t) = false.
Proof.
  each_ascii c; reflexivity.
Qed.

Section Dispatch.

Variable home : string.
Variable os_exec : list string -> gmap string string ->
                   proc_result * gmap string string.
Variable markup_ok : string -> bool.

Lemma dispatch_unknown (text : string) (w : world) :
  names_command text = false ->
  markup_ok (unknown_markup text) = true ->
  dispatch home os_exec markup_ok text w
  = (Ok Continue,
     mkWorld (files w) (keys w)
       (log w ++ [ OutHTML (unknown_markup text) ])%list).
Proof.
  unfold names_command, COMMANDS. simpl existsb.
  repeat rewrite orb_false_iff.
  intros (H1 & H2 & H3 & H4 & H5 & H6 & H7 & H8 & _) Hm.
  unfold dispatch. rewrite H1, H2, H3, H4, H5, H6, H7, H8.
  unfold bind at 1, unknown_command, bind at 1, HTML.
  fold (unknown_markup text). now rewrite Hm.
Qed.

Lemma iteration_unknown (w : world) (text content : string) (ks : list key)
      (hosts : list SSHConfig) :
  files w !! CONFIG_FILE home = Some content ->
  parse (universal_newlines content) = Ok hosts ->
  keys w = Line text :: ks ->
  names_command text = false ->
  markup_ok (unknown_markup text) = true ->
  iteration home os_exec markup_ok w = reported_unknown w text ks.
Proof.
  intros Hf Hp Hk Hn Hm. unfold iteration, bind at 1.
  rewrite (file_to_dataclass_run _ _ _ Hf), Hp.
  unfold bind at 1, try, prompt. rewrite Hk. simpl.
  rewrite (dispatch_unknown _ _ Hn Hm). unfold reported_unknown. simpl.
  now rewrite <- app_assoc.
Qed.

(** A turn that cannot parse the config file ends there. *)
Lemma iteration_unparsed (w : world) (content : string) (e : exn) :
  files w !! CONFIG_FILE home = Some content ->
  parse (universal_newlines content) = Raise e ->
  iteration home os_exec markup_ok w = (Raise e, w).
Proof.
  intros Hf Hp. unfold iteration, bind at 1.
  now rewrite (file_to_dataclass_run _ _ _ Hf), Hp.
Qed.

(** A turn ends the loop by [break] only on a line that starts with
    [exit]. *)
Lemma dispatch_break (text : string) (w w' : world) :
  dispatch home os_exec markup_ok text w = (Ok Break, w') ->
  startswith text "exit" = true.
Proof.
  unfold dispatch, bind, ret.
  repeat match goal with
         | |- context [if ?b then _ else _] => destruct b
         | |- context [match ?m ?x with _ => _ end] => destruct (m x) as [[[]|] ?]
         end; congruence.
Qed.

End Dispatch.

(** ** The wizard *)

Lemma split1_no_dot (s : string) :
  str_all no_dot s = true -> split1 "." s = [s].
Proof.
  induction s as [|c s IH]; simpl; [reflexivity|].
  unfold no_dot at 1. intros [Hc Hs]%andb_true_iff.
  apply negb_true_iff in Hc. rewrite Hc. now rewrite (IH Hs).
Qed.

Lemma str_all_lstrip (p : ascii -> bool) (s : string) :
  str_all p s = true -> str_all p (lstrip s) = true.
Proof.
  induction s as [|c s IH]; simpl; [reflexivity|].
  intros [Hc Hs]%andb_true_iff.
  destruct (is_space c); [now apply IH | simpl; now rewrite Hc, Hs].
Qed.

Lemma str_all_rstrip (p : ascii -> bool) (s : string) :
  str_all p s = true -> str_all p (rstrip s) = true.
Proof.
  induction s as [|c s IH]; simpl; [reflexivity|].
  intros [Hc Hs]%andb_true_iff. specialize (IH Hs).
  destruct (rstrip s) as [|c' r].
  - destruct (is_space c); simpl; [reflexivity | now rewrite Hc].
  - simpl in *. now rewrite Hc, IH.
Qed.

Lemma lower_char_no_dot (c : ascii) :
  no_dot c = true -> no_dot (lower_char c) = true.
Proof.
  each_ascii c; reflexivity.
Qed.

Lemma str_all_map (p : ascii -> bool) (f : ascii -> ascii) (s : string) :
  (forall c, p c = true -> p (f c) = true) ->
  str_all p s = true -> str_all p (str_map f s) = true.
Proof.
  intros Hf; induction s as [|c s IH]; simpl; [reflexivity|].
  intros [Hc Hs]%andb_true_iff. now rewrite (Hf _ Hc), IH.
Qed.

Lemma no_dot_hostname (text : string) :
  str_all no_dot text = true -> str_all no_dot (lower (strip text)) = true.
Proof.
  intros H. unfold lower, strip.
  apply str_all_map; [apply lower_char_no_dot|].
  now apply str_all_rstrip, str_all_lstrip.
Qed.

Lemma says_no_not_yes (answer : string) :
  says_no answer = true -> says_yes answer = false.
Proof.
  unfold says_no, says_yes. cbv zeta.
  intros [H|H]%orb_true_iff; apply String.eqb_eq in H; now rewrite H.
Qed.

Lemma yes_accepts (message answer : string) (ks : list key) (w : world) :
  keys w = Line answer :: ks -> says_yes answer = true ->
  yes message w = (Ok true, mkWorld (files w) ks (log w ++ [Ask message])%list).
Proof.
  intros Hk Hy. unfold yes. rewrite Hk. simpl.
  unfold says_yes in Hy. cbv zeta in Hy. now rewrite Hy.
Qed.

Lemma yes_declines (message answer : string) (ks : list key) (w : world) :
  keys w = Line answer :: ks -> says_no answer = true ->
  yes message w = (Ok false, mkWorld (files w) ks (log w ++ [Ask message])%list).
Proof.
  intros Hk Hn. unfold yes. rewrite Hk. simpl.
  pose proof (says_no_not_yes _ Hn) as Hy.
  unfold says_yes, says_no in *. cbv zeta in *. now rewrite Hy, Hn.
Qed.

Section Wizard.

Variable home : string.
Variable os_exec : list string -> gmap string string ->
                   proc_result * gmap string string.

Lemma add_host_no_dot (w : world) (text : string) (ks : list key) :
  keys w = Line text :: ks ->
  str_all no_dot text = true ->
  add_host home os_exec w
  = (Raise ValueError,
     mkWorld (files w) ks
       (log w ++ [Ask "Enter the domain name. (e.g. host.example.com): "])%list).
Proof.
  intros Hk Hd. unfold add_host, bind at 1, ask_domain_name, bind at 1, prompt.
  rewrite Hk. simpl. unfold bind at 1.
  rewrite (split1_no_dot _ (no_dot_hostname _ Hd)). reflexivity.
Qed.

Lemma check_existing_declined (w : world) (host content answer : string)
      (hosts : list SSHConfig) (ks : list key) :
  files w !! CONFIG_FILE home = Some content ->
  parse (universal_newlines content) = Ok hosts ->
  existsb (fun h => String.eqb host (hostname h)) hosts = true ->
  keys w = Line answer :: ks ->
  says_no answer = true ->
  check_existing home host w
  = (Ok None,
     mkWorld (files w) ks
       (log (asked w host ks) ++ [Err "... aborting" (chr LF)])%list).
Proof.
  intros Hf Hp Hex Hk Hn. unfold check_existing, bind at 1.
  rewrite (file_to_dataclass_run _ _ _ Hf), Hp. rewrite Hex.
  unfold bind at 1, stderr, show. unfold bind at 1.
  erewrite yes_declines; [|exact Hk|exact Hn].
  unfold asked, overwrite_question, bind, ret. simpl.
  now repeat rewrite <- app_assoc.
Qed.

Lemma check_existing_confirmed (w : world) (host content answer : string)
      (hosts : list SSHConfig) (ks : list key) :
  files w !! CONFIG_FILE home = Some content ->
  parse (universal_newlines content) = Ok hosts ->
  existsb (fun h => String.eqb host (hostname h)) hosts = true ->
  keys w = Line answer :: ks ->
  says_yes answer = true ->
  check_existing home host w = (Ok (Some (kept host hosts)), asked w host ks).
Proof.
  intros Hf Hp Hex Hk Hy. unfold check_existing, bind at 1.
  rewrite (file_to_dataclass_run _ _ _ Hf), Hp. rewrite Hex.
  unfold bind at 1, stderr, show. unfold bind at 1.
  erewrite yes_accepts; [|exact Hk|exact Hy].
  unfold asked, overwrite_question, kept, ret. simpl.
  now repeat rewrite <- app_assoc.
Qed.

(** With a reachable host and a port that converts, the wizard comes to
    the check for an existing configuration with what was entered. *)
Lemma add_host_comes_to_store
      (w : world) (domain alias usr prt derived rest out err : string)
      (n : Z) (fs : gmap string string) (ks : list key) :
  keys w = Line domain :: Line alias :: Line usr :: Line prt :: ks ->
  split1 "." (lower (strip domain)) = [derived; rest] ->
  os_exec ["ping"; "-c"; "1"; "-i"; "0.5"; lower (strip domain)] (files w)
  = (Exited 0 out err, fs) ->
  match strip prt with EmptyString => Ok 22%Z | text => int text end = Ok n ->
  add_host home os_exec w
  = store_host home os_exec (lower (strip domain)) (or_default alias derived)
      (or_default (strip usr) DEFAULT_USER) n
      (mkWorld fs ks
         (log w ++
          [ Ask "Enter the domain name. (e.g. host.example.com): ";
            Ask ("Enter an alias of the host (usage: ssh <alias>) ["
                 ++ derived ++ "]: ");
            Ask "please enter the user [admin]: ";
            Ask "please enter the port [22]: " ])%list).
Proof.
  intros Hk Hsplit Hping Hport.
  unfold add_host, bind at 1, ask_domain_name, bind at 1, prompt.
  rewrite Hk. simpl. unfold bind at 1. rewrite Hsplit.
  unfold ret at 1, bind at 1. simpl.
  unfold bind at 1, check_host_up, bind at 1, subprocess_run.
  simpl. rewrite Hping. simpl.
  unfold bind at 1, ask_user, bind at 1, prompt. simpl.
  unfold bind at 1, ask_port, bind at 1, prompt. simpl.
  repeat rewrite <- app_assoc. simpl.
  destruct (strip prt) as [|c t].
  - injection Hport as <-. reflexivity.
  - unfold lift. rewrite Hport. reflexivity.
Qed.

Lemma kept_other_hosts (host : string) (hosts : list SSHConfig) :
  Forall (fun h => hostname h <> host) (kept host hosts).
Proof.
  unfold kept. apply List.Forall_forall. intros h [_ Hh]%List.filter_In.
  apply negb_true_iff in Hh. now apply String.eqb_neq.
Qed.

Lemma kept_single (host : string) (old : SSHConfig) :
  existsb (fun h => String.eqb host (hostname h)) [old] = true ->
  kept host [old] = [].
Proof.
  simpl. rewrite orb_false_r, String.eqb_sym. now intros ->.
Qed.

End Wizard.

(** ** The loop *)

Create HintDb keeps discriminated.

Lemma keeps_ret {A} (a : A) : keeps_keys (ret a).
Proof. now intros w. Qed.

Lemma keeps_raise {A} (e : exn) : keeps_keys (@raise A e).
Proof. now intros w. Qed.

Lemma keeps_lift {A} (r : result A) : keeps_keys (lift r).
Proof. now intros w. Qed.

Lemma keeps_show (o : output) : keeps_keys (show o).
Proof. now intros w. Qed.

Lemma keeps_print (text : string) : keeps_keys (print text).
Proof. now intros w. Qed.

Lemma keeps_stderr (text ending : string) : keeps_keys (stderr text ending).
Proof. now intros w. Qed.

Lemma keeps_read_file (path : string) : keeps_keys (read_file path).
Proof. intros w. unfold read_file. now destruct (files w !! path). Qed.

Lemma keeps_bind {A B} (m : M A) (f : A -> M B) :
  keeps_keys m -> (forall a, keeps_keys (f a)) -> keeps_keys (bind m f).
Proof.
  intros Hm Hf w. unfold bind. specialize (Hm w).
  destruct (m w) as [[a|e] w1]; simpl in *; [|exact Hm].
  now rewrite Hf.
Qed.

Lemma keeps_try {A} (m : M A) : keeps_keys m -> keeps_keys (try m).
Proof.
  intros Hm w. unfold try. specialize (Hm w). now destruct (m w).
Qed.

Lemma keeps_for_each {A} (l : list A) (body : A -> M unit) :
  (forall x, keeps_keys (body x)) -> keeps_keys (for_each l body).
Proof.
  intros Hb; induction l as [|x l IH]; simpl.
  - apply keeps_ret.
  - apply keeps_bind; [apply Hb | intros _; exact IH].
Qed.

#[local] Hint Resolve keeps_ret keeps_raise keeps_lift keeps_show keeps_print
  keeps_stderr keeps_read_file : keeps.

(** Breaks a computation into its steps, down to the ones above. *)
Ltac keeps_steps :=
  repeat first
    [ apply keeps_bind; [|intros ?]
    | apply keeps_try
    | apply keeps_for_each; intros ?
    | match goal with
      | |- keeps_keys (match ?x with _ => _ end) => destruct x
      | |- keeps_keys (let '(_, _) := ?x in _) => destruct x
      end
    | solve [auto with keeps] ].

Section Loop.

Variable home : string.
Variable os_exec : list string -> gmap string string ->
                   proc_result * gmap string string.
Variable markup_ok : string -> bool.

Lemma keeps_subprocess_run (argv : list string) :
  keeps_keys (subprocess_run os_exec argv).
Proof.
  intros w. unfold subprocess_run.
  destruct (os_exec argv (files w)) as [[rc out err| |] fs]; reflexivity.
Qed.

Lemma keeps_HTML (text : string) : keeps_keys (HTML markup_ok text).
Proof. unfold HTML. destruct (markup_ok text); auto with keeps. Qed.

Hint Resolve keeps_subprocess_run keeps_HTML : keeps.

Lemma keeps_file_to_dataclass (file : string) :
  keeps_keys (file_to_dataclass file).
Proof. unfold file_to_dataclass. keeps_steps. Qed.

Hint Resolve keeps_file_to_dataclass : keeps.

Lemma keeps_list_config : keeps_keys (list_config home).
Proof. unfold list_config. keeps_steps. Qed.

Lemma keeps_dispatch (text : string) :
  keeps_keys (dispatch home os_exec markup_ok text).
Proof.
  pose proof keeps_list_config.
  unfold dispatch, ssh_command, help_command, configure, unknown_command.
  keeps_steps.
Qed.

(** A turn after which the loop goes on has taken one key. *)
Lemma iteration_takes_key (w w' : world) :
  iteration home os_exec markup_ok w = (Ok Continue, w') ->
  List.length (keys w') < List.length (keys w).
Proof.
  unfold iteration, bind at 1.
  pose proof (keeps_file_to_dataclass (CONFIG_FILE home) w) as H0.
  destruct (file_to_dataclass (CONFIG_FILE home) w) as [[cs|e] w0];
    [|discriminate].
  simpl in H0. rewrite <- H0. clear H0.
  unfold bind at 1, try, prompt.
  destruct (keys w0) as [|[text| |] ks] eqn:Hk; simpl.
  - discriminate.
  - intros H.
    pose proof (keeps_dispatch text
                  (mkWorld (files w0) ks (log w0 ++ [Ask ">>> "])%list)) as Hd.
    rewrite H in Hd. simpl in Hd. rewrite Hd. lia.
  - intros H.
    assert (Hm : keeps_keys
              (markup <- HTML markup_ok
                 "Enter <b>exit</b> to exit the shell or press <b>CTRL-D</b>." ;;
               show (ErrHTML markup) ;; ret Continue)%monad)
      by keeps_steps.
    specialize (Hm (mkWorld (files w0) ks (log w0 ++ [Ask ">>> "])%list)).
    rewrite H in Hm. simpl in Hm. rewrite Hm. lia.
  - discriminate.
Qed.

(** The turns never run out when there are more of them than keys to
    type: the loop ends by [break], by the end of input or by an error. *)
Lemma main_loop_ends (turns : nat) (w w' : world) (r : result (option unit)) :
  List.length (keys w) < turns ->
  main_loop home os_exec markup_ok turns w = (r, w') ->
  r <> Ok None.
Proof.
  revert w; induction turns as [|n IH]; intros w Hlen; [lia|].
  simpl. unfold bind.
  destruct (iteration home os_exec markup_ok w) as [[[]|e] w1] eqn:E.
  - apply iteration_takes_key in E. apply IH. lia.
  - intros [= <- _]. discriminate.
  - intros [= <- _]. discriminate.
Qed.

End Loop.

(* ================================================================== *)
(** * The claims *)

(** ** ConfigStore *)

(** C1 (round trip).  For every sequence of well-formed records, writing
    it with [dataclass_to_file] and reading the file back with
    [file_to_dataclass] gives the same records in the same order; the
    file then holds their serialization. *)
Theorem parse_serialize_roundtrip
        (file : string) (data : list SSHConfig) (w : world) :
  Forall (fun config => well_formed config = true) data ->
  (dataclass_to_file file data ;; file_to_dataclass file)%monad w
  = (Ok data, mkWorld (<[file := serialize data]> (files w)) (keys w) (log w)).
Proof.
  intros Hwf.
  unfold bind at 1, dataclass_to_file, write_file.
  unfold file_to_dataclass, bind, read_file, lift. simpl.
  rewrite lookup_insert_eq.
  rewrite (universal_newlines_id _ (serialize_no_cr _ Hwf)).
  now rewrite (parse_serialize _ Hwf).
Qed.

Lemma parse_serialize_roundtrip_witness :
  Forall (fun config => well_formed config = true) [web; db]
  /\ (dataclass_to_file "config" [web; db] ;; file_to_dataclass "config")%monad
       (mkWorld ∅ [] [])
     = (Ok [web; db], mkWorld (<["config" := serialize [web; db]]> ∅) [] []).
Proof.
  assert (H : Forall (fun config => well_formed config = true) [web; db])
    by (repeat constructor).
  split; [exact H|].
  exact (parse_serialize_roundtrip "config" [web; db] (mkWorld ∅ [] []) H).
Defined.

(** C3, as the code has it.  The text a match hands to [int] is always a
    non-empty run of decimal digits: a block whose Port line holds no
    number is not matched, and gives neither a record nor an error.  The
    conversion does fail on some input: parsing ends in a [ValueError]
    exactly when one of the Port fields found has more digits than [int]
    converts, and in no other way. *)
Theorem port_conversion_outcomes (content : string) :
  Forall (fun p => p <> "" /\ str_all is_digit p = true) (port_fields content)
  /\ match parse content with
     | Ok _ => existsb overlong (port_fields content) = false
     | Raise e => e = ValueError
                  /\ existsb overlong (port_fields content) = true
     end
  /\ parse port_word_file = Ok []
  /\ parse port_long_file = Raise ValueError.
Proof.
  split; [|split; [|split]].
  - apply List.Forall_forall. intros p. unfold port_fields.
    intros (m & Hm & Hp)%in_flat_map.
    destruct (scan_ports _ _ _ Hm) as (p' & Hg & Hne & Hd & _).
    rewrite Hg in Hp. destruct Hp as [<-|[]]. now split.
  - pose proof (parse_outcome content) as H.
    destruct (parse content); [apply H | exact H].
  - reflexivity.
  - vm_compute. reflexivity.
Qed.

(** C3, as stated, fails: the file whose Port line reads [ssh] parses to
    no record, without an error, and no match ever hands [int] a text
    with a character that is not a digit. *)
Lemma non_numeric_port_not_converted :
  parse port_word_file = Ok []
  /\ ~ (exists content m p,
          In m (finditer SSH_KEY_FILE_REGEX content)
          /\ group m "port" = Ok p /\ str_all is_digit p = false).
Proof.
  split; [reflexivity|].
  intros (content & m & p & Hm & Hg & Hp).
  destruct (scan_ports _ _ _ Hm) as (p' & Hg' & _ & Hd & _).
  congruence.
Qed.

(** C6, as the code has it.  Reading a file changes nothing and has one
    of two outcomes.  It gives the records of the blocks of the content
    from left to right, and nothing else: a character at which the
    pattern does not match, where no block starts, is passed over and
    gives neither a record nor an error; each match has read a block and
    gives the one record of it; the scan goes on behind the match.  Or it
    ends in a [ValueError] and gives no record at all: that is so exactly
    when the pattern finds a Port field of more digits than [int]
    converts. *)
Theorem parse_skips_unmatched
        (file content : string) (fs : gmap string string)
        (ks : list key) (lg : list output) :
  let w := mkWorld (<[file := content]> fs) ks lg in
  let text := universal_newlines content in
  (forall cs, file_to_dataclass file w = (Ok cs, w) <-> blocks_of text cs)
  /\ (forall cs cs', blocks_of text cs -> blocks_of text cs' -> cs' = cs)
  /\ (file_to_dataclass file w = (Raise ValueError, w)
      <-> existsb overlong (port_fields text) = true)
  /\ ((exists cs, file_to_dataclass file w = (Ok cs, w))
      \/ file_to_dataclass file w = (Raise ValueError, w)).
Proof.
  intros w text.
  assert (Hrun : file_to_dataclass file w = (parse text, w))
    by (apply file_to_dataclass_run, lookup_insert_eq).
  rewrite Hrun. pose proof (parse_outcome text) as Ho.
  split; [|split; [|split]].
  - intros cs. split.
    + intros [= H]. now apply parse_blocks.
    + intros H%blocks_of_parse. now rewrite H.
  - intros cs cs' H%blocks_of_parse H'%blocks_of_parse. congruence.
  - destruct (parse text) as [cs|e].
    + destruct Ho as [Ho _]. split; [discriminate | congruence].
    + destruct Ho as [-> Ho]. now split.
  - destruct (parse text) as [cs|e]; [left; now exists cs | right].
    now destruct Ho as [-> _].
Qed.

(** C6, as stated, fails: behind a comment and a good block, a block
    whose Port field is too long for [int] makes reading the file raise,
    and neither block gives a record. *)
Lemma long_port_raises :
  file_to_dataclass "config" (mkWorld {[ "config" := untidy_long_file ]} [] [])
  = (Raise ValueError, mkWorld {[ "config" := untidy_long_file ]} [] []).
Proof. vm_compute. reflexivity. Qed.

(** A comment, a block without its User line and a block indented by
    blanks give no record; the good block behind them gives one. *)
Example untidy_file_parsed : parse untidy_file = Ok [web].
Proof. reflexivity. Qed.

(** C9, as the code has it.  The records that parsing produces stand one
    to one, in order, against the Port fields the pattern finds: each
    record has as port the value [int] gives for the non-empty run of
    digits of its own block, which is not negative.  No range is
    enforced: every number that is not negative and within the digit
    limit of [int] is the port of the parsed record when a block holds
    it. *)
Theorem parsed_ports_nonnegative :
  (forall content cs,
     parse content = Ok cs ->
     Forall2 (fun p config => p <> "" /\ str_all is_digit p = true
                              /\ String.length p <= int_max_str_digits
                              /\ int p = Ok (port config))
             (port_fields content) cs
     /\ Forall (fun config => (0 <= port config)%Z) cs)
  /\ (forall config,
        well_formed config = true -> parse (block config) = Ok [config]).
Proof.
  split.
  - intros content cs H. pose proof (parse_outcome content) as Ho.
    rewrite H in Ho. destruct Ho as [_ Ho]. clear H.
    induction Ho as [|p c ps cs' (Hne & Hd & Hi & Hc) _ [IH1 IH2]];
      split; constructor; auto.
    + repeat split; try assumption.
      pose proof (overlong_refused p Hne Hd) as Hlen. rewrite Hi in Hlen.
      destruct Hlen as [Hlen _]. now apply Nat.ltb_ge in Hlen.
    + now apply convertible_text in Hc as [Hc _].
  - intros config Hwf.
    assert (Hnil : forall t : string, t ++ "" = t)
      by (induction t as [|c t IH]; simpl; congruence).
    pose proof (parse_serialize [config]) as H.
    change (serialize [config]) with (block config ++ "") in H.
    rewrite Hnil in H. apply H. now constructor.
Qed.

Lemma parsed_ports_nonnegative_witness :
  parse port_large_file
  = Ok [mkSSHConfig "web" "web.example.com" "admin" 70000 "/k/web"]
  /\ Forall2 (fun p config => p <> "" /\ str_all is_digit p = true
                              /\ String.length p <= int_max_str_digits
                              /\ int p = Ok (port config))
             ["70000"]
             [mkSSHConfig "web" "web.example.com" "admin" 70000 "/k/web"]
  /\ parse (block (mkSSHConfig "web" "web.example.com" "admin" 0 "/k/web"))
     = Ok [mkSSHConfig "web" "web.example.com" "admin" 0 "/k/web"].
Proof.
  split; [reflexivity|]. split.
  - exact (proj1 (proj1 parsed_ports_nonnegative port_large_file _ eq_refl)).
  - exact (proj2 parsed_ports_nonnegative
             (mkSSHConfig "web" "web.example.com" "admin" 0 "/k/web") eq_refl).
Defined.

(** C9, as stated, fails: a Port line of 0 gives a record with port 0,
    and one of 70000 a record with port 70000. *)
Lemma parsed_port_out_of_range :
  parse port_zero_file
  = Ok [mkSSHConfig "web" "web.example.com" "admin" 0 "/k/web"]
  /\ parse port_large_file
     = Ok [mkSSHConfig "web" "web.example.com" "admin" 70000 "/k/web"]
  /\ ~ (forall content cs, parse content = Ok cs ->
          Forall (fun config => (1 <= port config <= 65535)%Z) cs).
Proof.
  split; [reflexivity|]. split; [reflexivity|].
  intros H. specialize (H port_zero_file _ eq_refl).
  apply List.Forall_inv in H. destruct H as [H _]. now apply H.
Qed.

(** ** list *)

Lemma fold_left_max_le (xs : list nat) (a x : nat) :
  x <= a \/ In x xs -> x <= fold_left Nat.max xs a.
Proof.
  revert a; induction xs as [|y xs IH]; intros a; simpl.
  - intros [H|[]]. exact H.
  - intros [H|[H|H]]; apply IH; [left; lia | left; lia | now right].
Qed.

Lemma length_str_repeat (c : ascii) (n : nat) :
  String.length (str_repeat c n) = n.
Proof. induction n; simpl; congruence. Qed.

Lemma length_ljust (s : string) (width : nat) (fill : ascii) :
  String.length s <= width -> String.length (ljust s width fill) = width.
Proof.
  intros H. unfold ljust. rewrite length_append, length_str_repeat. lia.
Qed.

(** C5, as the code has it.  With no host in the config file, [list]
    fails with the [ValueError] of the first [max] over an empty sequence,
    before anything is printed; with at least one host it completes and
    prints the header, the rule, one row per host and the usage line. *)
Theorem list_config_outcomes
        (home content : string) (w : world) (hosts : list SSHConfig) :
  files w !! CONFIG_FILE home = Some content ->
  parse (universal_newlines content) = Ok hosts ->
  list_config home w
  = match hosts with
    | [] => (Raise ValueError, w)
    | first :: others =>
        (Ok tt,
         mkWorld (files w) (keys w) (log w ++ listing first others)%list)
    end.
Proof.
  intros Hf Hp. destruct hosts as [|first others].
  - now apply (list_config_empty home content).
  - now apply (list_config_hosts home content).
Qed.

Lemma list_config_outcomes_witness :
  list_config sample_home (sample_world "" []) = (Raise ValueError, sample_world "" [])
  /\ list_config sample_home (sample_world (serialize [web; db]) [])
     = (Ok tt,
        mkWorld (files (sample_world (serialize [web; db]) [])) []
                (listing web [db])).
Proof.
  split.
  - exact (list_config_outcomes sample_home "" (sample_world "" []) []
             eq_refl eq_refl).
  - exact (list_config_outcomes sample_home (serialize [web; db])
             (sample_world (serialize [web; db]) []) [web; db]
             eq_refl eq_refl).
Defined.

(** C5, as stated, fails: on the empty host list the error is not the
    [IndexError] of indexing the first record, and no table has been
    printed when it is raised. *)
Lemma list_config_empty_prints_nothing :
  list_config sample_home (sample_world "" [])
  = (Raise ValueError, sample_world "" [])
  /\ log (sample_world "" []) = []
  /\ ~ (exists w', list_config sample_home (sample_world "" [])
                   = (Raise IndexError, w') /\ log w' <> []).
Proof.
  assert (E : list_config sample_home (sample_world "" [])
              = (Raise ValueError, sample_world "" [])) by reflexivity.
  split; [exact E|]. split; [reflexivity|].
  intros (w' & H & _). rewrite E in H. discriminate.
Qed.

(** C8, as the code has it.  Every cell of the identifier column is as
    wide as the longest identifier and every cell of the host column as
    wide as the longest user@hostname, filled with '.'; so with the one
    record of the scenario nothing is filled: the output is the header
    [IDENTIFIER | HOST], a rule of 27 '=', the row
    [web | admin@web.example.com] and the usage line. *)
Theorem list_config_single_host
        (home : string) (fs : gmap string string)
        (ks : list key) (lg : list output) :
  (forall first others host, In host (first :: others) ->
     String.length (ljust (ID host) (id_width first others) ".")
     = id_width first others
     /\ String.length (ljust (user host ++ "@" ++ hostname host)
                             (host_width first others) ".")
        = host_width first others)
  /\ list_config home
       (mkWorld (<[CONFIG_FILE home := serialize [web]]> fs) ks lg)
     = (Ok tt,
        mkWorld (<[CONFIG_FILE home := serialize [web]]> fs) ks
          (lg ++ [ Out "IDENTIFIER | HOST";
                   Out "===========================";
                   Out "web | admin@web.example.com";
                   Out (String LF "Usage: 'ssh <identifier>' (eg: ssh web)") ])%list).
Proof.
  split.
  - intros first others host Hin. split; apply length_ljust.
    + unfold id_width. apply fold_left_max_le.
      destruct Hin as [<-|Hin]; [left; lia | right].
      now apply (in_map (fun h => String.length (ID h))).
    + unfold host_width. repeat rewrite length_append. simpl String.length.
      transitivity (String.length (hostname host) + 1
                    + String.length (user host)); [lia|].
      apply fold_left_max_le.
      destruct Hin as [<-|Hin]; [left; lia | right].
      now apply (in_map (fun h => String.length (hostname h) + 1
                                  + String.length (user h))).
  - erewrite (list_config_hosts home (serialize [web]) _ web []).
    + reflexivity.
    + apply lookup_insert_eq.
    + reflexivity.
Qed.

(** C8, as stated, fails: the row of the scenario carries no '.'. *)
Lemma list_config_single_host_row_unpadded :
  ~ In (Out "web... | admin@web.example.com...")
       (log (snd (list_config sample_home
                    (sample_world (serialize [web]) [])))).
Proof.
  vm_compute. intros [H|[H|[H|[H|[]]]]]; discriminate H.
Qed.

(** ** CommandDispatcher *)

(** C4, as the code has it.  The dispatcher tests the line as it was
    typed, white space included, with [startswith] against ssh, remove,
    add, list, help, exit, configure, clear.  A line that starts with none
    of them gives exactly one unknown-command message (when the terminal
    library takes the message, into which the line goes as typed), leaves
    the files as they are and the loop running; these are in particular
    the lines whose first whitespace-delimited token starts with none of
    them, and the lines that are empty or begin with white space.  (A
    turn whose config file does not parse never comes to its prompt.) *)
Theorem unknown_command_reported
        (home : string)
        (os_exec : list string -> gmap string string ->
                   proc_result * gmap string string)
        (markup_ok : string -> bool)
        (w : world) (text content : string) (ks : list key) :
  files w !! CONFIG_FILE home = Some content ->
  keys w = Line text :: ks ->
  markup_ok (unknown_markup text) = true ->
  names_command text = false
  \/ names_command (first_token text) = false
  \/ stops non_space text = true ->
  names_command text = false
  /\ iteration home os_exec markup_ok w
     = after_parse content w (reported_unknown w text ks).
Proof.
  intros Hf Hk Hm H.
  assert (Hn : names_command text = false).
  { destruct H as [H|[H|H]].
    - exact H.
    - now apply names_command_first_token.
    - destruct text as [|c t]; [reflexivity|].
      apply names_command_leading_space.
      simpl in H. unfold non_space in H. now rewrite negb_involutive in H. }
  split; [exact Hn|]. unfold after_parse.
  destruct (parse (universal_newlines content)) as [hosts|e] eqn:Hp.
  - now apply (iteration_unknown home os_exec markup_ok w text content ks hosts).
  - now apply (iteration_unparsed home os_exec markup_ok w content).
Qed.

Lemma unknown_command_reported_witness :
  names_command (first_token "connect web") = false
  /\ iteration sample_home sample_exec sample_markup_ok
       (sample_world (serialize [web]) [Line "connect web"; Line "exit"])
     = (Ok Continue,
        mkWorld {[ CONFIG_FILE sample_home := serialize [web] ]}
          [Line "exit"]
          [ Ask ">>> ";
            OutHTML ("Unknown Command: connect web" ++ String LF
                     "Enter <b>help</b> for a list of all commands.") ]).
Proof.
  split; [reflexivity|].
  exact (proj2 (unknown_command_reported sample_home sample_exec
                  sample_markup_ok
                  (sample_world (serialize [web]) [Line "connect web"; Line "exit"])
                  "connect web" (serialize [web]) [Line "exit"]
                  eq_refl eq_refl eq_refl (or_intror (or_introl eq_refl)))).
Defined.

(** C4, as stated, fails.  The first token of [" list"] is [list], a
    command, and yet the line is reported as unknown, since it does not
    start with [list]; and the first token of ["listing"] is none of the
    eight names, and yet the line runs [list], since it starts with
    [list]. *)
Lemma leading_blank_hides_command :
  first_token " list" = "list"
  /\ In (first_token " list") COMMANDS
  /\ iteration sample_home sample_exec sample_markup_ok
       (sample_world (serialize [web]) [Line " list"])
     = reported_unknown (sample_world (serialize [web]) [Line " list"])
                        " list" []
  /\ first_token "listing" = "listing"
  /\ ~ In (first_token "listing") COMMANDS
  /\ iteration sample_home sample_exec sample_markup_ok
       (sample_world (serialize [web]) [Line "listing"])
     = (Ok Continue,
        mkWorld {[ CONFIG_FILE sample_home := serialize [web] ]} []
                (Ask ">>> " :: listing web [])).
Proof.
  repeat split.
  - simpl. tauto.
  - simpl. intros H; repeat destruct H as [H|H]; discriminate || contradiction.
Qed.

(** C7, at its failing input.  On the line [configure], with nothing
    behind it, the turn ends in an [IndexError] that nothing catches: the
    loop stops although the line is neither [exit] nor the end of input.
    (Where the config file does not parse, the turn has ended before the
    prompt, in the error of the parse, which nothing catches either.) *)
Theorem configure_without_arguments_raises
        (home : string)
        (os_exec : list string -> gmap string string ->
                   proc_result * gmap string string)
        (markup_ok : string -> bool)
        (content : string) (fs : gmap string string)
        (ks : list key) (lg : list output) :
  let w := mkWorld (<[CONFIG_FILE home := content]> fs)
                   (Line "configure" :: ks) lg in
  iteration home os_exec markup_ok w
  = after_parse content w
      (Raise IndexError,
       mkWorld (<[CONFIG_FILE home := content]> fs) ks
               (lg ++ [Ask ">>> "])%list).
Proof.
  intros w. unfold after_parse, iteration, bind at 1.
  rewrite (file_to_dataclass_run (CONFIG_FILE home) content)
    by apply lookup_insert_eq.
  now destruct (parse (universal_newlines content)).
Qed.

(** The same kind of end on [list] when the config file holds no host. *)
Example list_without_hosts_raises :
  iteration sample_home sample_exec sample_markup_ok
    (sample_world "" [Line "list"; Line "exit"])
  = (Raise ValueError,
     mkWorld {[ CONFIG_FILE sample_home := "" ]} [Line "exit"] [Ask ">>> "]).
Proof. reflexivity. Qed.

(** What does hold of C7: [break] is reached only on a line that starts
    with [exit], an interrupt at the prompt leaves the loop running, the
    end of input ends it with [SystemExit]. *)
Lemma iteration_break_only_on_exit
      (home : string)
      (os_exec : list string -> gmap string string ->
                 proc_result * gmap string string)
      (markup_ok : string -> bool) (w w' : world) :
  iteration home os_exec markup_ok w = (Ok Break, w') ->
  exists text ks, keys w = Line text :: ks /\ startswith text "exit" = true.
Proof.
  unfold iteration, bind at 1.
  destruct (file_to_dataclass (CONFIG_FILE home) w) as [[cs|e] w1] eqn:E;
    [|discriminate].
  assert (Hw : w1 = w).
  { revert E. unfold file_to_dataclass, bind, read_file, lift.
    destruct (files w !! CONFIG_FILE home); [|discriminate]. congruence. }
  subst w1. unfold bind at 1, try, prompt.
  destruct (keys w) as [|[text| |] ks]; simpl; try discriminate.
  - intros H%dispatch_break. now exists text, ks.
  - unfold bind, HTML. destruct (markup_ok _); discriminate.
Qed.

Example interrupt_and_end_of_input :
  iteration sample_home sample_exec sample_markup_ok
    (sample_world "" [CtrlC; CtrlD])
  = (Ok Continue,
     mkWorld {[ CONFIG_FILE sample_home := "" ]} [CtrlD]
       [ Ask ">>> ";
         ErrHTML "Enter <b>exit</b> to exit the shell or press <b>CTRL-D</b>." ])
  /\ iteration sample_home sample_exec sample_markup_ok
       (sample_world "" [CtrlD])
     = (Raise (SystemExit (-1)),
        mkWorld {[ CONFIG_FILE sample_home := "" ]} []
          [ Ask ">>> "; Err "... exiting" (chr LF) ]).
Proof. split; reflexivity. Qed.

(** ** The add-host wizard *)

(** C10 (a host name without a dot).  When the domain name that was
    entered holds no '.', [add_host] ends in the [ValueError] of unpacking
    the one-element split, right after the first prompt: no other prompt
    is shown, no key is taken, no file is touched. *)
Theorem add_host_without_dot_fails
        (home : string)
        (os_exec : list string -> gmap string string ->
                   proc_result * gmap string string)
        (w : world) (text : string) (ks : list key) :
  keys w = Line text :: ks ->
  str_all no_dot text = true ->
  add_host home os_exec w
  = (Raise ValueError,
     mkWorld (files w) ks
       (log w ++ [Ask "Enter the domain name. (e.g. host.example.com): "])%list).
Proof. apply add_host_no_dot. Qed.

Lemma add_host_without_dot_fails_witness :
  str_all no_dot "localhost" = true
  /\ add_host sample_home sample_exec
       (sample_world "" [Line "localhost"; Line "box"])
     = (Raise ValueError,
        mkWorld {[ CONFIG_FILE sample_home := "" ]} [Line "box"]
          [Ask "Enter the domain name. (e.g. host.example.com): "]).
Proof.
  split; [reflexivity|].
  exact (add_host_without_dot_fails sample_home sample_exec
           (sample_world "" [Line "localhost"; Line "box"])
           "localhost" [Line "box"] eq_refl eq_refl).
Defined.

(** C2 (overwrite policy).  When a stored record has the host name of the
    new record, [add_host] asks.  On no, it stops and the files stay as
    they were.  On yes, once the keys are generated, the file is written
    with the stored records of other host names, in their order, followed
    by the new record; a single stored record with that host name leaves
    exactly the new record. *)
Theorem add_host_overwrite
        (home : string)
        (os_exec : list string -> gmap string string ->
                   proc_result * gmap string string)
        (w : world) (host alias usr : string) (prt : Z)
        (content answer : string) (hosts : list SSHConfig) (ks : list key) :
  files w !! CONFIG_FILE home = Some content ->
  parse (universal_newlines content) = Ok hosts ->
  existsb (fun h => String.eqb host (hostname h)) hosts = true ->
  keys w = Line answer :: ks ->
  (says_no answer = true ->
   store_host home os_exec host alias usr prt w
   = (Ok tt,
      mkWorld (files w) ks
        (log (asked w host ks) ++ [Err "... aborting" (chr LF)])%list))
  /\ (says_yes answer = true ->
      forall key_path public_key w2,
        generate_keys home os_exec host (asked w host ks)
        = (Ok (key_path, public_key), w2) ->
        let new_config_data := mkSSHConfig alias host usr prt key_path in
        Forall (fun h => hostname h <> host) (kept host hosts)
        /\ (forall old, hosts = [old] ->
              (kept host hosts ++ [new_config_data])%list = [new_config_data])
        /\ exists w3,
            store_host home os_exec host alias usr prt w = (Ok tt, w3)
            /\ files w3
               = <[CONFIG_FILE home :=
                     serialize (kept host hosts ++ [new_config_data])]>
                   (files w2)
            /\ keys w3 = keys w2).
Proof.
  intros Hf Hp Hex Hk. split.
  - intros Hn. unfold store_host, bind at 1.
    now rewrite (check_existing_declined home w host content answer hosts ks).
  - intros Hy key_path public_key w2 Hgen new_config_data.
    split; [apply kept_other_hosts|]. split.
    { intros old ->. now rewrite (kept_single host old Hex). }
    unfold store_host, bind at 1.
    rewrite (check_existing_confirmed home w host content answer hosts ks)
      by assumption.
    unfold bind at 1. rewrite Hgen.
    eexists. split; [reflexivity|]. split; reflexivity.
Qed.

Lemma add_host_overwrite_witness :
  store_host sample_home sample_exec "a.com" "a2" "root" 2200
    (sample_world (serialize [old_a]) [Line "n"])
  = (Ok tt,
     mkWorld {[ CONFIG_FILE sample_home := serialize [old_a] ]} []
       [ overwrite_question "a.com"; Ask ""; Err "... aborting" (chr LF) ])
  /\ exists w3,
      store_host sample_home sample_exec "a.com" "a2" "root" 2200
        (sample_world (serialize [old_a]) [Line "Yes"])
      = (Ok tt, w3)
      /\ files w3 !! CONFIG_FILE sample_home
         = Some (serialize [mkSSHConfig "a2" "a.com" "root" 2200
                              "/home/u/.ssh/keys/a_com"]).
Proof.
  split.
  - exact (proj1 (add_host_overwrite sample_home sample_exec
                    (sample_world (serialize [old_a]) [Line "n"])
                    "a.com" "a2" "root" 2200 (serialize [old_a]) "n"
                    [old_a] [] eq_refl eq_refl eq_refl eq_refl) eq_refl).
  - edestruct (proj2 (add_host_overwrite sample_home sample_exec
                        (sample_world (serialize [old_a]) [Line "Yes"])
                        "a.com" "a2" "root" 2200 (serialize [old_a]) "Yes"
                        [old_a] [] eq_refl eq_refl eq_refl eq_refl) eq_refl)
      as (_ & Hsingle & w3 & Hrun & Hfiles & _).
    + vm_compute. reflexivity.
    + exists w3. split; [exact Hrun|].
      rewrite Hfiles, (Hsingle old_a eq_refl). apply lookup_insert_eq.
Defined.

(** Scenario B through the whole wizard: the stored record of [a.com] is
    replaced by the one that was entered. *)
Example add_host_scenario_b :
  let w := sample_world (serialize [old_a])
             [Line " A.com "; Line "a2"; Line "root"; Line "2200"; Line ""] in
  fst (add_host sample_home sample_exec w) = Ok tt
  /\ files (snd (add_host sample_home sample_exec w)) !! CONFIG_FILE sample_home
     = Some (serialize [mkSSHConfig "a2" "a.com" "root" 2200
                          "/home/u/.ssh/keys/a_com"]).
Proof. vm_compute. split; reflexivity. Qed.

(* ================================================================== *)
(** * Further properties *)

(** ** The file format *)

(** The split a greedy class settles on is the first that succeeds: no
    longer run did. *)
Lemma plus_inv_greedy (p : ascii -> bool) (s : string) (g : groupdict)
      (k : cont) (a : groupdict * string) :
  plus p s g k = Some a ->
  exists l s', s = l ++ s' /\ l <> "" /\ str_all p l = true
               /\ k s' g = Some a /\ plus p s' g k = None.
Proof.
  induction s as [|c s IH]; simpl; [discriminate|].
  destruct (p c) eqn:Hc; [|discriminate].
  destruct (plus p s g k) as [a'|] eqn:E.
  - intros [= ->]. destruct (IH eq_refl) as (l & s' & -> & _ & Hl & Hk & Hn).
    exists (String c l), s'. simpl. rewrite Hc, Hl.
    repeat split; try assumption. discriminate.
  - intros Hk. exists (chr c), s. simpl. rewrite Hc.
    repeat split; try assumption. discriminate.
Qed.

Lemma opt_accepts (c : ascii) (s : string) :
  accepts (opt c) (fun s' g => Some (g, s')) s.
Proof.
  intros g. unfold opt. destruct s as [|c' s]; [discriminate|].
  destruct (Ascii.eqb c' c); discriminate.
Qed.

(** A line of a block that has matched matches whatever was captured
    before it. *)
Lemma field_accepts (label name : string) (p : ascii -> bool) (rest : re)
      (k : cont) :
  (forall s g a, rest s g k = Some a -> accepts rest k s) ->
  forall s g a,
    (lit label ⋅ plus blank ⋅ named name (plus p) ⋅ rest)%re s g k = Some a ->
    accepts (lit label ⋅ plus blank ⋅ named name (plus p) ⋅ rest)%re k s.
Proof.
  intros Hrest s g a H.
  apply field_inv in H as (sp & v & s' & -> & ? & ? & ? & ? & H).
  apply field_some; try assumption. eapply Hrest. exact H.
Qed.

(** The line of an alias that is one blank: the class of blanks gives
    its last blank back. *)
Lemma field_run_blank (label name : string) (p : ascii -> bool) (rest : re)
      (s : string) (g : groupdict) (k : cont) (a : groupdict * string) :
  p " "%char = true -> stops p s = true -> stops blank s = true ->
  rest s ((name, " ") :: g) k = Some a ->
  (lit label ⋅ plus blank ⋅ named name (plus p) ⋅ rest)%re
    (label ++ " " ++ " " ++ s) g k = Some a.
Proof.
  intros Hp Hstop Hblank Hrest.
  unfold seq at 1. rewrite lit_append. unfold seq at 1.
  change (" " ++ " " ++ s) with (String " " (String " " s)).
  cbn [plus]. change (blank " ") with true. cbv iota.
  rewrite (plus_stops blank s _ _ Hblank).
  unfold seq at 1, named at 1. rewrite (plus_stops p s _ _ Hstop).
  unfold seq, named. cbn [plus]. rewrite Hp.
  rewrite (plus_stops p s _ _ Hstop).
  change (String " " s) with (" " ++ s). now rewrite take_append.
Qed.

Lemma token_id_shape (s : string) : token s = true -> id_shape s = true.
Proof.
  intros H. unfold id_shape.
  rewrite (token_stops_blank _ H).
  rewrite (str_all_impl non_space dot s non_space_dot (token_all _ H)).
  destruct s; [discriminate | reflexivity].
Qed.

Lemma well_formed_parsed_shape (config : SSHConfig) :
  well_formed config = true -> parsed_shape config = true.
Proof.
  unfold well_formed, parsed_shape.
  intros [[[[Hid ->]%andb_true_iff ->]%andb_true_iff ->]%andb_true_iff
            ->]%andb_true_iff.
  now rewrite (token_id_shape _ Hid).
Qed.

Lemma parsed_shape_port (config : SSHConfig) :
  parsed_shape config = true -> convertible (port config) = true.
Proof.
  unfold parsed_shape.
  intros [[_ Hp]%andb_true_iff _]%andb_true_iff. exact Hp.
Qed.

(** The record of what the pattern has matched is of the parser's shape,
    and its alias stands in the text. *)
Lemma match_at_record (s rest : string) (m : groupdict) (config : SSHConfig) :
  match_at SSH_KEY_FILE_REGEX s = Some (m, rest) ->
  config_of_match m = Ok config ->
  parsed_shape config = true
  /\ exists pre post, s = pre ++ ID config ++ post.
Proof.
  unfold match_at, SSH_KEY_FILE_REGEX. intros H Hconfig.
  unfold seq at 1 in H. apply lit_inv in H as (s1 & -> & H).
  unfold seq at 1 in H.
  apply plus_inv_greedy in H as (sp1 & s2 & -> & Hsp & Hbl & H & Hgreedy).
  unfold seq at 1, named at 1 in H.
  apply plus_inv in H as (id & s3 & -> & Hid & Hdot & H).
  rewrite take_append in H.
  assert (Hacc : forall g,
            (lit (nl_tab "Hostname") ⋅ plus blank ⋅ named "hostname" (plus non_space) ⋅
             lit (nl_tab "User") ⋅ plus blank ⋅ named "user" (plus non_space) ⋅
             lit (nl_tab "Port") ⋅ plus blank ⋅ named "port" (plus is_digit) ⋅
             lit (nl_tab "IdentityFile") ⋅ plus blank ⋅ named "key_file" (plus non_space) ⋅
             opt LF)%re s3 g (fun s' g' => Some (g', s')) <> None).
  { match type of H with
    | ?R _ _ ?k = Some _ =>
        assert (Hgen : forall s g a, R s g k = Some a -> accepts R k s)
    end.
    { repeat apply field_accepts. intros s g a _. apply opt_accepts. }
    exact (Hgen _ _ _ H). }
  assert (Hshape : id_shape id = true).
  { unfold id_shape. rewrite Hdot.
    destruct id as [|c id']; [congruence|]. simpl.
    destruct (blank c) eqn:Hc; [|reflexivity]. simpl.
    apply Ascii.eqb_eq in Hc. subst c.
    destruct id' as [|c' id'']; [reflexivity|]. exfalso.
    change ((String " " (String c' id'')) ++ s3)
      with (String " " (String c' id'' ++ s3)) in Hgreedy.
    cbn [plus] in Hgreedy. change (blank " ") with true in Hgreedy.
    cbv iota in Hgreedy.
    match type of Hgreedy with
    | match ?x with _ => _ end = None => destruct x; [discriminate|]
    end.
    unfold seq at 1, named at 1 in Hgreedy.
    revert Hgreedy. apply plus_some.
    - discriminate.
    - exact Hdot.
    - apply Hacc. }
  apply field_inv in H as (sp2 & h & s4 & -> & ? & ? & ? & ? & H).
  apply field_inv in H as (sp3 & u & s5 & -> & ? & ? & ? & ? & H).
  apply field_inv in H as (sp4 & p & s6 & -> & ? & ? & Hp & Hd & H).
  apply field_inv in H as (sp5 & kf & s7 & -> & ? & ? & ? & ? & H).
  apply opt_inv in H as (e & s8 & -> & He & [= <- <-]).
  unfold config_of_match in Hconfig. simpl in Hconfig.
  destruct (int p) as [z|err] eqn:Hi; [|discriminate].
  injection Hconfig as <-.
  split.
  - unfold parsed_shape. simpl. rewrite Hshape.
    repeat rewrite token_intro by assumption.
    now rewrite (int_convertible p z Hp Hd Hi).
  - exists ("Host" ++ sp1),
      (nl_tab "Hostname" ++ sp2 ++ h ++ nl_tab "User" ++ sp3 ++ u ++
       nl_tab "Port" ++ sp4 ++ p ++ nl_tab "IdentityFile" ++ sp5 ++ kf ++ e
       ++ s8).
    simpl. now repeat rewrite append_assoc.
Qed.

(** The match at the front of the serialization of any record of the
    parser's shape. *)
Lemma match_at_block_shape (config : SSHConfig) (tail : string) :
  parsed_shape config = true ->
  match_at SSH_KEY_FILE_REGEX (block config ++ tail)
  = Some (groups_of config, String LF tail).
Proof.
  unfold parsed_shape.
  intros [[[[Hid Hh]%andb_true_iff Hu]%andb_true_iff Hp]%andb_true_iff
            Hk]%andb_true_iff.
  destruct (convertible_text _ Hp) as (_ & Hpne & Hpd & _).
  unfold id_shape in Hid.
  apply andb_true_iff in Hid as [[Hne Hdot]%andb_true_iff Hfront].
  assert (Hne' : ID config <> "") by (now destruct (ID config)).
  rewrite block_fields. unfold match_at, SSH_KEY_FILE_REGEX.
  assert (Hrest : forall g,
    (lit (nl_tab "Hostname") ⋅ plus blank ⋅ named "hostname" (plus non_space) ⋅
     lit (nl_tab "User") ⋅ plus blank ⋅ named "user" (plus non_space) ⋅
     lit (nl_tab "Port") ⋅ plus blank ⋅ named "port" (plus is_digit) ⋅
     lit (nl_tab "IdentityFile") ⋅ plus blank ⋅ named "key_file" (plus non_space) ⋅
     opt LF)%re
      (nl_tab "Hostname" ++ " " ++ hostname config ++
       nl_tab "User" ++ " " ++ user config ++
       nl_tab "Port" ++ " " ++ str_of_int (port config) ++
       nl_tab "IdentityFile" ++ " " ++ key_file config ++
       String LF (String LF tail)) g (fun s' g' => Some (g', s'))
    = Some ([ ("key_file", key_file config);
              ("port", str_of_int (port config));
              ("user", user config);
              ("hostname", hostname config) ] ++ g, String LF tail)%list).
  { intros g.
    apply field_run; auto using token_nonempty, token_stops_blank, token_all.
    apply field_run; auto using token_nonempty, token_stops_blank, token_all.
    apply field_run; auto.
    { apply token_stops_blank, token_intro; [exact Hpne|].
      eapply str_all_impl; [apply digit_non_space | exact Hpd]. }
    apply field_run; auto using token_nonempty, token_stops_blank, token_all. }
  apply orb_true_iff in Hfront as [Hfront|Hblank].
  - apply field_run; auto.
  - apply String.eqb_eq in Hblank. unfold groups_of. rewrite Hblank.
    apply field_run_blank; try reflexivity. apply Hrest.
Qed.

Lemma universal_newlines_no_cr (s : string) :
  str_all no_cr (universal_newlines s) = true.
Proof.
  remember (String.length s) as n eqn:Hn. revert s Hn.
  induction n as [n IH] using lt_wf_ind. intros s ->.
  destruct s as [|c s]; [reflexivity|]. simpl.
  destruct (Ascii.eqb c CR) eqn:Hc.
  - simpl. destruct s as [|c' s']; [reflexivity|].
    destruct (Ascii.eqb c' LF).
    + apply (IH (String.length s')); [simpl; lia | reflexivity].
    + apply (IH (String.length (String c' s'))); [simpl; lia | reflexivity].
  - simpl. unfold no_cr at 1. rewrite Hc. simpl.
    apply (IH (String.length s)); [simpl; lia | reflexivity].
Qed.

(** The record of every match of the scan is of the parser's shape; when
    the text holds no CR, neither does the alias. *)
Lemma scan_records (n : nat) (content : string) (m : groupdict)
      (config : SSHConfig) :
  In m (scan SSH_KEY_FILE_REGEX n content) ->
  config_of_match m = Ok config ->
  parsed_shape config = true
  /\ (str_all no_cr content = true -> str_all no_cr (ID config) = true).
Proof.
  intros Hin Hc. revert n Hin; induction content as [|c s IH]; intros n.
  - destruct n; simpl; [|now intros []].
    replace (match_at SSH_KEY_FILE_REGEX "") with (@None (groupdict * string))
      by reflexivity.
    now intros [].
  - assert (Htail : forall n', In m (scan SSH_KEY_FILE_REGEX n' s) ->
              parsed_shape config = true
              /\ (str_all no_cr (String c s) = true ->
                  str_all no_cr (ID config) = true)).
    { intros n' Hin. destruct (IH n' Hin) as (Hs & Hcr).
      split; [exact Hs|].
      simpl. intros [_ H]%andb_true_iff. now apply Hcr. }
    destruct n as [|n]; simpl; [|apply Htail].
    destruct (match_at SSH_KEY_FILE_REGEX (String c s)) as [[m' rest]|] eqn:E;
      [|apply Htail].
    intros [->|Hin]; [|eapply Htail; exact Hin].
    destruct (match_at_record _ _ _ _ E Hc) as (Hs & pre & post & Htext).
    split; [exact Hs|].
    intros Hcr. change (str_all no_cr (String c s) = true) in Hcr.
    rewrite Htext in Hcr. repeat rewrite str_all_append in Hcr.
    now apply andb_true_iff in Hcr as [_ [H _]%andb_true_iff].
Qed.

Lemma configs_all (P : SSHConfig -> Prop) (ms : list groupdict)
      (cs : list SSHConfig) :
  (forall m config, In m ms -> config_of_match m = Ok config -> P config) ->
  configs_of_matches ms = Ok cs -> Forall P cs.
Proof.
  revert cs; induction ms as [|m ms IH]; intros cs Hall; simpl.
  - intros [= <-]. constructor.
  - destruct (config_of_match m) as [config|] eqn:Hc; [|discriminate]. simpl.
    destruct (configs_of_matches ms) as [cs'|] eqn:Hcs; [|discriminate]. simpl.
    intros [= <-]. constructor; [now apply (Hall m); [left|]|].
    apply IH; [|reflexivity]. intros m' config' Hm'. apply Hall. now right.
Qed.

Lemma parse_records (content : string) (cs : list SSHConfig) :
  parse content = Ok cs ->
  Forall (fun config =>
            parsed_shape config = true
            /\ (str_all no_cr content = true ->
                str_all no_cr (ID config) = true)) cs.
Proof.
  apply configs_all. intros m config Hm Hc.
  exact (scan_records _ _ _ _ Hm Hc).
Qed.

(** ** Blocks and the text around them *)

Lemma configs_of_groups_app (data : list SSHConfig) (ms : list groupdict) :
  Forall (fun config => parsed_shape config = true) data ->
  configs_of_matches (map groups_of data ++ ms)%list
  = rbind (configs_of_matches ms) (fun cs => Ok (data ++ cs)%list).
Proof.
  induction 1 as [|config data Hs _ IH]; simpl.
  - now destruct (configs_of_matches ms).
  - rewrite (config_of_groups _ (parsed_shape_port _ Hs)). simpl.
    rewrite IH. now destruct (configs_of_matches ms).
Qed.

Lemma scan_serialize_append (data : list SSHConfig) (rest : string) :
  Forall (fun config => parsed_shape config = true) data ->
  scan SSH_KEY_FILE_REGEX O (serialize data ++ rest)
  = (map groups_of data ++ scan SSH_KEY_FILE_REGEX O rest)%list.
Proof.
  induction 1 as [|config data Hs _ IH]; [reflexivity|].
  change (serialize (config :: data)) with (block config ++ serialize data).
  rewrite append_assoc.
  pose proof (match_at_block_shape config (serialize data ++ rest) Hs) as E.
  destruct (match_at_block_text _ _ _ E) as (b & p & Htext & Hb & _).
  rewrite Htext in E |- *.
  rewrite (scan_match _ _ _ _ Hb E).
  rewrite scan_skip by reflexivity.
  simpl. now rewrite IH.
Qed.

Lemma parse_serialize_append (data cs : list SSHConfig) (rest : string) :
  Forall (fun config => parsed_shape config = true) data ->
  parse rest = Ok cs ->
  parse (serialize data ++ rest) = Ok (data ++ cs)%list.
Proof.
  intros Hs Hrest. unfold parse, finditer in *.
  rewrite (scan_serialize_append _ _ Hs), (configs_of_groups_app _ _ Hs).
  now rewrite Hrest.
Qed.

Lemma parse_serialize_shape (data : list SSHConfig) :
  Forall (fun config => parsed_shape config = true) data ->
  parse (serialize data) = Ok data.
Proof.
  intros Hs.
  rewrite <- (append_empty_r (serialize data)).
  rewrite (parse_serialize_append data [] "" Hs eq_refl).
  now rewrite app_nil_r.
Qed.

Lemma match_at_not_H (c : ascii) (s : string) :
  not_H c = true -> match_at SSH_KEY_FILE_REGEX (String c s) = None.
Proof.
  unfold not_H. intros H%negb_true_iff.
  unfold match_at, SSH_KEY_FILE_REGEX, seq at 1, lit.
  change (strip_prefix "Host" (String c s))
    with (if Ascii.eqb "H" c then strip_prefix "ost" s else None).
  rewrite Ascii.eqb_sym in H. now rewrite H.
Qed.

Lemma scan_not_H (junk rest : string) :
  str_all not_H junk = true ->
  scan SSH_KEY_FILE_REGEX O (junk ++ rest) = scan SSH_KEY_FILE_REGEX O rest.
Proof.
  induction junk as [|c junk IH]; [reflexivity|].
  simpl str_all. intros [Hc Hj]%andb_true_iff.
  change (String c junk ++ rest) with (String c (junk ++ rest)).
  rewrite scan_skip by (now apply match_at_not_H). now apply IH.
Qed.

Lemma serialize_shape_no_cr (data : list SSHConfig) :
  Forall (fun config => parsed_shape config = true
                        /\ str_all no_cr (ID config) = true) data ->
  str_all no_cr (serialize data) = true.
Proof.
  induction 1 as [|config data [Hs Hcr] _ IH]; [reflexivity|].
  change (serialize (config :: data)) with (block config ++ serialize data).
  rewrite str_all_append, IH, andb_true_r.
  pose proof (parsed_shape_port _ Hs) as Hp.
  destruct (convertible_text _ Hp) as (_ & _ & Hd & _).
  revert Hs. unfold parsed_shape.
  intros [[[[_ Hh]%andb_true_iff Hu]%andb_true_iff _]%andb_true_iff
            Hk]%andb_true_iff.
  unfold block. repeat rewrite str_all_append.
  rewrite Hcr, (token_no_cr _ Hh), (token_no_cr _ Hu), (token_no_cr _ Hk).
  rewrite (str_all_impl is_digit no_cr _
             (fun c H => non_space_no_cr c (digit_non_space c H)) Hd).
  reflexivity.
Qed.

(** Writing records of the parser's shape, then reading them. *)
Lemma write_then_read (file : string) (data : list SSHConfig) (w : world) :
  Forall (fun config => parsed_shape config = true
                        /\ str_all no_cr (ID config) = true) data ->
  (dataclass_to_file file data ;; file_to_dataclass file)%monad w
  = (Ok data, mkWorld (<[file := serialize data]> (files w)) (keys w) (log w)).
Proof.
  intros H.
  assert (Hs : Forall (fun config => parsed_shape config = true) data)
    by (revert H; apply List.Forall_impl; now intros ? [? _]).
  unfold bind at 1, dataclass_to_file, write_file.
  unfold file_to_dataclass, bind, read_file, lift. simpl.
  rewrite lookup_insert_eq.
  rewrite (universal_newlines_id _ (serialize_shape_no_cr _ H)).
  now rewrite (parse_serialize_shape _ Hs).
Qed.

(** X1 (what a parsed record looks like).  Every record that parsing
    produces has a non-empty alias without LF that does not begin with a
    blank (or is the single blank), a host name, a user and a key file that
    are non-empty and free of white space, and a port that is not
    negative and has no more digits than [int] converts. *)
Theorem parsed_records_shape (content : string) (cs : list SSHConfig) :
  parse content = Ok cs ->
  Forall (fun config => parsed_shape config = true) cs.
Proof.
  intros H%parse_records. revert H. apply List.Forall_impl. now intros ? [? _].
Qed.

Lemma parsed_records_shape_witness :
  parse loose_file = Ok [my_box]
  /\ Forall (fun config => parsed_shape config = true) [my_box].
Proof.
  split; [reflexivity|].
  exact (parsed_records_shape loose_file [my_box] eq_refl).
Defined.

(** X2 (rewriting the file loses no record).  When reading a config
    file succeeds, writing the records back with [dataclass_to_file] and
    reading again gives the records of the first reading; the file then
    holds their serialization, which parses to them.  When the first
    reading fails, on a Port field too long for [int], nothing is written
    and the file is as it was. *)
Theorem read_write_read
        (file content : string) (fs : gmap string string)
        (ks : list key) (lg : list output) :
  let w := mkWorld (<[file := content]> fs) ks lg in
  let rewrite_file := (cs <- file_to_dataclass file ;;
                       dataclass_to_file file cs ;;
                       file_to_dataclass file)%monad in
  match parse (universal_newlines content) with
  | Ok cs =>
      parse (serialize cs) = Ok cs
      /\ rewrite_file w
         = (Ok cs,
            mkWorld (<[file := serialize cs]> (<[file := content]> fs)) ks lg)
  | Raise e => e = ValueError /\ rewrite_file w = (Raise ValueError, w)
  end.
Proof.
  intros w rewrite_file.
  assert (Hread : file_to_dataclass file w
                  = (parse (universal_newlines content), w))
    by (apply file_to_dataclass_run, lookup_insert_eq).
  pose proof (parse_outcome (universal_newlines content)) as Ho.
  destruct (parse (universal_newlines content)) as [cs|e] eqn:Hp.
  - pose proof (parse_records _ _ Hp) as Hrec.
    assert (Hs : Forall (fun config => parsed_shape config = true
                                       /\ str_all no_cr (ID config) = true) cs).
    { revert Hrec. apply List.Forall_impl. intros config [Hs Hcr].
      split; [exact Hs|]. apply Hcr, universal_newlines_no_cr. }
    split.
    + apply parse_serialize_shape. revert Hs. apply List.Forall_impl.
      now intros ? [? _].
    + unfold rewrite_file, bind at 1. rewrite Hread.
      exact (write_then_read file cs w Hs).
  - destruct Ho as [-> _]. split; [reflexivity|].
    unfold rewrite_file, bind at 1. now rewrite Hread.
Qed.

(** X3 (serialized records before other text).  When well-shaped records
    are serialized in front of any text, parsing gives these records
    followed by the records of that text. *)
Theorem parse_after_blocks (data cs : list SSHConfig) (rest : string) :
  Forall (fun config => parsed_shape config = true) data ->
  parse rest = Ok cs ->
  parse (serialize data ++ rest) = Ok (data ++ cs)%list.
Proof. apply parse_serialize_append. Qed.

Lemma parse_after_blocks_witness :
  Forall (fun config => parsed_shape config = true) [web; my_box]
  /\ parse untidy_file = Ok [web]
  /\ parse (serialize [web; my_box] ++ untidy_file) = Ok [web; my_box; web].
Proof.
  assert (H : Forall (fun config => parsed_shape config = true) [web; my_box])
    by (repeat constructor).
  split; [exact H|]. split; [reflexivity|].
  exact (parse_after_blocks [web; my_box] [web] untidy_file H eq_refl).
Defined.

(** X4 (text without the letter H).  Text in which no capital H occurs,
    put before any content, changes nothing of what parsing gives: no
    block can start in it. *)
Theorem parse_skips_text_without_H (junk rest : string) :
  str_all not_H junk = true ->
  parse (junk ++ rest) = parse rest.
Proof.
  intros H. unfold parse, finditer. now rewrite (scan_not_H _ _ H).
Qed.

Lemma parse_skips_text_without_H_witness :
  str_all not_H "# managed by scon, do not edit" = true
  /\ parse ("# managed by scon, do not edit" ++ serialize [web; db])
     = parse (serialize [web; db]).
Proof.
  split; [reflexivity|].
  exact (parse_skips_text_without_H "# managed by scon, do not edit"
           (serialize [web; db]) eq_refl).
Defined.

(** X5 (round trip with white space in the alias).  Writing and reading
    back gives the same records for every list of records of the parser's
    shape whose aliases hold no CR: the alias may hold blanks inside and
    at its end, which the wizard does not exclude. *)
Theorem roundtrip_parsed_shape
        (file : string) (data : list SSHConfig) (w : world) :
  Forall (fun config => parsed_shape config = true
                        /\ str_all no_cr (ID config) = true) data ->
  (dataclass_to_file file data ;; file_to_dataclass file)%monad w
  = (Ok data, mkWorld (<[file := serialize data]> (files w)) (keys w) (log w)).
Proof. apply write_then_read. Qed.

Lemma roundtrip_parsed_shape_witness :
  Forall (fun config => parsed_shape config = true
                        /\ str_all no_cr (ID config) = true) [my_box; web]
  /\ well_formed my_box = false
  /\ (dataclass_to_file "config" [my_box; web] ;; file_to_dataclass "config")%monad
       (mkWorld ∅ [] [])
     = (Ok [my_box; web],
        mkWorld (<["config" := serialize [my_box; web]]> ∅) [] []).
Proof.
  assert (H : Forall (fun config => parsed_shape config = true
                        /\ str_all no_cr (ID config) = true) [my_box; web])
    by (repeat constructor).
  split; [exact H|]. split; [reflexivity|].
  exact (roundtrip_parsed_shape "config" [my_box; web] (mkWorld ∅ [] []) H).
Defined.

(** ** Asking *)

Lemma yes_from_unrecognised (message : string) (junk : list string)
      (ks : list key) (shown : list output) :
  Forall (fun a => unrecognised a = true) junk ->
  yes_from message (map Line junk ++ ks)%list shown
  = yes_from message ks
      (shown ++ repeat (Ask message) (List.length junk))%list.
Proof.
  intros H. revert shown. induction H as [|a junk Ha _ IH]; intros shown; simpl.
  - now rewrite app_nil_r.
  - unfold unrecognised, says_yes, says_no in Ha. cbv zeta in Ha.
    apply andb_true_iff in Ha as [Hy%negb_true_iff Hn%negb_true_iff].
    rewrite Hy, Hn, IH. now rewrite <- app_assoc.
Qed.

Lemma repeat_snoc {A} (x : A) (n : nat) :
  (repeat x n ++ [x])%list = repeat x (S n).
Proof. induction n as [|n IH]; simpl; [reflexivity | now rewrite IH]. Qed.

(** X6 ([yes] asks until it is answered).  [yes] passes over every line
    that is none of y, yes, the empty line, n, no (after [strip] and
    [lower]), asking again each time; the first line that is one of them
    decides, and only the keys up to it are taken.  When the input ends
    before such a line, [yes] raises [EOFError]. *)
Theorem yes_asks_until_answered
        (message answer : string) (junk : list string) (ks : list key)
        (w : world) :
  Forall (fun a => unrecognised a = true) junk ->
  (keys w = (map Line junk ++ Line answer :: ks)%list ->
   unrecognised answer = false ->
   yes message w
   = (Ok (says_yes answer),
      mkWorld (files w) ks
        (log w ++ repeat (Ask message) (S (List.length junk)))%list))
  /\ (keys w = map Line junk ->
      yes message w
      = (Raise EOFError,
         mkWorld (files w) []
           (log w ++ repeat (Ask message) (S (List.length junk)))%list)).
Proof.
  intros Hjunk. split.
  - intros Hk Ha. unfold yes. rewrite Hk, (yes_from_unrecognised _ _ _ _ Hjunk).
    simpl yes_from.
    unfold unrecognised in Ha. apply andb_false_iff in Ha.
    destruct (says_yes answer) eqn:Hy.
    + unfold says_yes in Hy. cbv zeta in Hy. rewrite Hy.
      now rewrite <- app_assoc, repeat_snoc.
    + destruct Ha as [Ha|Ha]; [discriminate|].
      apply negb_false_iff in Ha.
      unfold says_yes in Hy. unfold says_no in Ha. cbv zeta in Hy, Ha.
      rewrite Hy, Ha. now rewrite <- app_assoc, repeat_snoc.
  - intros Hk. unfold yes. rewrite Hk.
    rewrite <- (app_nil_r (map Line junk)).
    rewrite (yes_from_unrecognised _ _ _ _ Hjunk). simpl.
    now rewrite <- app_assoc, repeat_snoc.
Qed.

Lemma yes_asks_until_answered_witness :
  Forall (fun a => unrecognised a = true) ["maybe"; "ja"]
  /\ yes "[Y/n]" (mkWorld ∅ [Line "maybe"; Line "ja"; Line " NO "; Line "y"] [])
     = (Ok false,
        mkWorld ∅ [Line "y"] [Ask "[Y/n]"; Ask "[Y/n]"; Ask "[Y/n]"])
  /\ yes "[Y/n]" (mkWorld ∅ [Line "maybe"; Line "ja"] [])
     = (Raise EOFError,
        mkWorld ∅ [] [Ask "[Y/n]"; Ask "[Y/n]"; Ask "[Y/n]"]).
Proof.
  assert (H : Forall (fun a => unrecognised a = true) ["maybe"; "ja"])
    by (repeat constructor).
  split; [exact H|]. split.
  - exact (proj1 (yes_asks_until_answered "[Y/n]" " NO " ["maybe"; "ja"]
                    [Line "y"]
                    (mkWorld ∅ [Line "maybe"; Line "ja"; Line " NO "; Line "y"] [])
                    H) eq_refl eq_refl).
  - exact (proj2 (yes_asks_until_answered "[Y/n]" "" ["maybe"; "ja"] []
                    (mkWorld ∅ [Line "maybe"; Line "ja"] []) H) eq_refl).
Defined.

(** ** The steps of the wizard *)

Lemma split1_first_dot (a b : string) :
  str_all no_dot a = true -> split1 "." (a ++ "." ++ b) = [a; b].
Proof.
  induction a as [|c a IH]; simpl; [reflexivity|].
  unfold no_dot at 1. intros [Hc Ha]%andb_true_iff.
  apply negb_true_iff in Hc. rewrite Hc.
  change (a ++ String "." b) with (a ++ "." ++ b). now rewrite (IH Ha).
Qed.

Lemma uint_of_string_digits (s : string) (u : Decimal.uint) :
  NilEmpty.uint_of_string s = Some u -> str_all is_digit s = true.
Proof.
  revert u; induction s as [|c s IH]; intros u; simpl; [reflexivity|].
  destruct (NilEmpty.uint_of_string s) as [d|]; [|discriminate].
  intros H. rewrite (IH d eq_refl), andb_true_r.
  apply uint_of_char_spec in H.
  repeat (destruct H as [[-> _]|H]; [reflexivity|]).
  now destruct H as [-> _].
Qed.

Lemma drop_underscores_keeps (b : bool) (s ds : string) :
  drop_underscores b s = Some ds ->
  str_all digit_or_underscore s = false ->
  str_all is_digit ds = false.
Proof.
  revert b ds; induction s as [|c s IH]; intros b ds; simpl; [discriminate|].
  unfold digit_or_underscore at 1.
  destruct (Ascii.eqb c "_") eqn:Hc.
  - rewrite orb_true_r. simpl. destruct b; [|discriminate]. apply IH.
  - rewrite orb_false_r.
    destruct (drop_underscores true s) as [ds'|] eqn:E; [|discriminate].
    intros [= <-]. simpl. destruct (is_digit c); simpl; [|reflexivity].
    now apply (IH true).
Qed.

Lemma lstrip_front (s : string) : stops is_space (lstrip s) = true.
Proof.
  induction s as [|c s IH]; simpl; [reflexivity|].
  destruct (is_space c) eqn:Hc; [exact IH|]. simpl. now rewrite Hc.
Qed.

Lemma rstrip_front (s : string) :
  stops is_space s = true -> stops is_space (rstrip s) = true.
Proof.
  destruct s as [|c s]; [reflexivity|]. simpl. intros Hc.
  destruct (rstrip s); [|exact Hc].
  apply negb_true_iff in Hc. rewrite Hc. simpl. now rewrite Hc.
Qed.

Lemma rstrip_idempotent (s : string) : rstrip (rstrip s) = rstrip s.
Proof.
  induction s as [|c s IH]; simpl; [reflexivity|].
  destruct (rstrip s) as [|c' r] eqn:E.
  - destruct (is_space c) eqn:Hc; simpl; [reflexivity | now rewrite Hc].
  - change (rstrip (String c (String c' r)))
      with (match rstrip (String c' r) with
            | EmptyString => if is_space c then EmptyString else chr c
            | r' => String c r'
            end).
    now rewrite IH.
Qed.

(** [strip] of a stripped text changes nothing. *)
Lemma strip_idempotent (s : string) : strip (strip s) = strip s.
Proof.
  unfold strip.
  rewrite (lstrip_stops (rstrip (lstrip s)))
    by (apply rstrip_front, lstrip_front).
  apply rstrip_idempotent.
Qed.

(** What [str.strip] leaves, [int] takes as it is. *)
Lemma skip_stripped (s : string) :
  skip_trailing (skip_leading (strip s)) = strip s.
Proof.
  rewrite skip_leading_stops
    by (unfold strip; apply rstrip_front, lstrip_front).
  apply skip_trailing_rstrip. unfold strip. apply rstrip_idempotent.
Qed.

(** [int] refuses every text that, white space at its ends apart, holds a
    character other than a digit, an underscore or a sign. *)
Lemma int_refuses (s : string) :
  str_all number_char (skip_trailing (skip_leading s)) = false ->
  int s = Raise ValueError.
Proof.
  intros H. unfold int.
  assert (Hbody : forall b body,
            str_all digit_or_underscore body = false ->
            match drop_underscores false body with
            | Some ds =>
                match NilZero.uint_of_string ds with
                | Some u =>
                    if (String.length ds <=? int_max_str_digits)%nat
                    then Ok (if b : bool then (- Z.of_uint u)%Z
                             else Z.of_uint u)
                    else Raise ValueError
                | None => Raise ValueError
                end
            | None => Raise ValueError
            end = Raise ValueError).
  { intros b body Hb.
    destruct (drop_underscores false body) as [ds|] eqn:E; [|reflexivity].
    pose proof (drop_underscores_keeps _ _ _ E Hb) as Hd.
    destruct ds as [|c ds]; [reflexivity|].
    change (NilZero.uint_of_string (String c ds))
      with (NilEmpty.uint_of_string (String c ds)).
    destruct (NilEmpty.uint_of_string (String c ds)) as [u|] eqn:Eu;
      [|reflexivity].
    apply uint_of_string_digits in Eu. congruence. }
  assert (Hweak : forall t, str_all number_char t = false ->
                            str_all digit_or_underscore t = false).
  { intros t Ht. destruct (str_all digit_or_underscore t) eqn:E; [|reflexivity].
    rewrite <- Ht. symmetry. revert E. apply str_all_impl.
    unfold digit_or_underscore, number_char. intros c ->. reflexivity. }
  destruct (skip_trailing (skip_leading s)) as [|c r] eqn:Et; [discriminate|].
  simpl in H.
  destruct (Ascii.eqb c "-") eqn:Hm.
  - cbv beta iota zeta. apply (Hbody true), Hweak.
    unfold number_char at 1 in H. rewrite Hm, orb_true_r in H. exact H.
  - destruct (Ascii.eqb c "+") eqn:Hpl.
    + cbv beta iota zeta. apply (Hbody false), Hweak.
      unfold number_char at 1 in H. rewrite Hpl, orb_true_r in H. exact H.
    + cbv beta iota zeta. apply (Hbody false), Hweak. exact H.
Qed.

Section WizardSteps.

Variable home : string.
Variable os_exec : list string -> gmap string string ->
                   proc_result * gmap string string.

Lemma ask_domain_name_run
      (w : world) (domain alias label rest : string) (ks : list key) :
  keys w = Line domain :: Line alias :: ks ->
  lower (strip domain) = label ++ "." ++ rest ->
  str_all no_dot label = true ->
  ask_domain_name w
  = (Ok (label ++ "." ++ rest, or_default alias label),
     mkWorld (files w) ks
       (log w ++
        [ Ask "Enter the domain name. (e.g. host.example.com): ";
          Ask ("Enter an alias of the host (usage: ssh <alias>) ["
               ++ label ++ "]: ") ])%list).
Proof.
  intros Hk Hd Hl. unfold ask_domain_name, bind at 1, prompt.
  rewrite Hk. simpl. unfold bind at 1. rewrite Hd.
  rewrite (split1_first_dot _ _ Hl).
  unfold ret at 1, bind at 1. simpl. unfold ret.
  now rewrite <- app_assoc.
Qed.

(** X7 (the alias offered).  With a host name that holds a dot, the
    wizard offers the text before the first dot as alias and takes the
    alias that is typed, or the offered one when the line is empty; the
    host name is what was entered, stripped and in lower case. *)
Theorem ask_domain_name_offers_first_label
        (w : world) (domain alias label rest : string) (ks : list key) :
  keys w = Line domain :: Line alias :: ks ->
  lower (strip domain) = label ++ "." ++ rest ->
  str_all no_dot label = true ->
  ask_domain_name w
  = (Ok (label ++ "." ++ rest, or_default alias label),
     mkWorld (files w) ks
       (log w ++
        [ Ask "Enter the domain name. (e.g. host.example.com): ";
          Ask ("Enter an alias of the host (usage: ssh <alias>) ["
               ++ label ++ "]: ") ])%list).
Proof. apply ask_domain_name_run. Qed.

Lemma ask_domain_name_offers_first_label_witness :
  ask_domain_name (mkWorld ∅ [Line " Web.Example.COM "; Line ""; Line "x"] [])
  = (Ok ("web.example.com", "web"),
     mkWorld ∅ [Line "x"]
       [ Ask "Enter the domain name. (e.g. host.example.com): ";
         Ask "Enter an alias of the host (usage: ssh <alias>) [web]: " ]).
Proof.
  exact (ask_domain_name_offers_first_label
           (mkWorld ∅ [Line " Web.Example.COM "; Line ""; Line "x"] [])
           " Web.Example.COM " "" "web" "example.com" [Line "x"]
           eq_refl eq_refl eq_refl).
Defined.

(** X8 (the port prompt).  A line that is empty or white space gives port
    22; the decimal text of a number that is not negative and within the
    digit limit of [int], with white space around it or not, gives that
    number; a line that holds, white space at its ends apart, any
    character other than a digit, an underscore or a sign ends in a
    [ValueError], and so does a run of more digits than [int] converts;
    the question is not put again. *)
Theorem ask_port_outcomes (w : world) (line : string) (ks : list key) :
  keys w = Line line :: ks ->
  let w' := mkWorld (files w) ks
              (log w ++ [Ask "please enter the port [22]: "])%list in
  (strip line = "" -> ask_port w = (Ok 22%Z, w'))
  /\ (forall n, convertible n = true -> strip line = str_of_int n ->
        ask_port w = (Ok n, w'))
  /\ (str_all number_char (strip line) = false ->
      ask_port w = (Raise ValueError, w'))
  /\ (str_all is_digit (strip line) = true -> overlong (strip line) = true ->
      ask_port w = (Raise ValueError, w')).
Proof.
  intros Hk w'. unfold ask_port, bind, prompt. rewrite Hk. simpl.
  fold w'. repeat split.
  - now intros ->.
  - intros n Hn Hs. destruct (convertible_text n Hn) as (_ & Hne & Hd & Hint).
    rewrite Hs. destruct (str_of_int n) as [|c t] eqn:E; [congruence|].
    unfold lift. now rewrite Hint.
  - intros Hbad. destruct (strip line) as [|c t] eqn:E; [discriminate|].
    unfold lift. rewrite <- E in Hbad |- *.
    rewrite <- skip_stripped in Hbad. now rewrite (int_refuses _ Hbad).
  - intros Hd Hlong. destruct (strip line) as [|c t] eqn:E; [discriminate|].
    unfold lift. rewrite int_overlong; [reflexivity | exact Hd |].
    now apply Nat.ltb_lt.
Qed.

Lemma ask_port_outcomes_witness :
  ask_port (mkWorld ∅ [Line "   "; Line "x"] [])
  = (Ok 22%Z, mkWorld ∅ [Line "x"] [Ask "please enter the port [22]: "])
  /\ ask_port (mkWorld ∅ [Line " 2222 "; Line "x"] [])
     = (Ok 2222%Z, mkWorld ∅ [Line "x"] [Ask "please enter the port [22]: "])
  /\ ask_port (mkWorld ∅ [Line "22 or so"; Line "x"] [])
     = (Raise ValueError,
        mkWorld ∅ [Line "x"] [Ask "please enter the port [22]: "])
  /\ ask_port (mkWorld ∅ [Line (str_repeat "7" (S int_max_str_digits));
                          Line "x"] [])
     = (Raise ValueError,
        mkWorld ∅ [Line "x"] [Ask "please enter the port [22]: "]).
Proof.
  split; [|split; [|split]].
  - exact (proj1 (ask_port_outcomes (mkWorld ∅ [Line "   "; Line "x"] [])
                    "   " [Line "x"] eq_refl) eq_refl).
  - exact (proj1 (proj2 (ask_port_outcomes
                           (mkWorld ∅ [Line " 2222 "; Line "x"] [])
                           " 2222 " [Line "x"] eq_refl)) 2222%Z
                 eq_refl eq_refl).
  - exact (proj1 (proj2 (proj2 (ask_port_outcomes
                           (mkWorld ∅ [Line "22 or so"; Line "x"] [])
                           "22 or so" [Line "x"] eq_refl))) eq_refl).
  - refine (proj2 (proj2 (proj2 (ask_port_outcomes
              (mkWorld ∅ [Line (str_repeat "7" (S int_max_str_digits));
                          Line "x"] [])
              (str_repeat "7" (S int_max_str_digits)) [Line "x"] eq_refl)))
              _ _); vm_compute; reflexivity.
Defined.

End WizardSteps.

Section WizardRuns.

Variable home : string.
Variable os_exec : list string -> gmap string string ->
                   proc_result * gmap string string.

Lemma check_existing_absent (w : world) (host content : string)
      (hosts : list SSHConfig) :
  files w !! CONFIG_FILE home = Some content ->
  parse (universal_newlines content) = Ok hosts ->
  existsb (fun h => String.eqb host (hostname h)) hosts = false ->
  check_existing home host w = (Ok (Some hosts), w).
Proof.
  intros Hf Hp Hex. unfold check_existing, bind at 1.
  rewrite (file_to_dataclass_run _ _ _ Hf), Hp. now rewrite Hex.
Qed.

(** Once the records to keep are known and the keys are generated, the
    file is written with these records followed by the new one. *)
Lemma store_host_writes (w w1 w2 : world) (host alias usr : string) (prt : Z)
      (hosts : list SSHConfig) (key_path public_key : string) :
  check_existing home host w = (Ok (Some hosts), w1) ->
  generate_keys home os_exec host w1 = (Ok (key_path, public_key), w2) ->
  exists w3,
    store_host home os_exec host alias usr prt w = (Ok tt, w3)
    /\ files w3
       = <[CONFIG_FILE home :=
             serialize (hosts ++ [mkSSHConfig alias host usr prt key_path])]>
           (files w2)
    /\ keys w3 = keys w2.
Proof.
  intros Hc Hg. unfold store_host, bind at 1. rewrite Hc.
  unfold bind at 1. rewrite Hg.
  eexists. split; [reflexivity|]. split; reflexivity.
Qed.

Lemma read_back (file : string) (data : list SSHConfig) (w : world) :
  Forall (fun config => parsed_shape config = true
                        /\ str_all no_cr (ID config) = true) data ->
  files w !! file = Some (serialize data) ->
  file_to_dataclass file w = (Ok data, w).
Proof.
  intros H Hf.
  assert (Hs : Forall (fun config => parsed_shape config = true) data)
    by (revert H; apply List.Forall_impl; now intros ? [? _]).
  unfold file_to_dataclass, bind, read_file, lift. rewrite Hf.
  rewrite (universal_newlines_id _ (serialize_shape_no_cr _ H)).
  now rewrite (parse_serialize_shape _ Hs).
Qed.

Lemma well_formed_readable (config : SSHConfig) :
  well_formed config = true ->
  parsed_shape config = true /\ str_all no_cr (ID config) = true.
Proof.
  intros H. split; [now apply well_formed_parsed_shape|].
  apply token_no_cr. revert H. unfold well_formed.
  now intros [[[[H _]%andb_true_iff _]%andb_true_iff _]%andb_true_iff
                _]%andb_true_iff.
Qed.

Lemma parsed_readable (content : string) (hosts : list SSHConfig) :
  parse (universal_newlines content) = Ok hosts ->
  Forall (fun config => parsed_shape config = true
                        /\ str_all no_cr (ID config) = true) hosts.
Proof.
  intros H%parse_records. revert H. apply List.Forall_impl.
  intros config [Hs Hcr]. split; [exact Hs|].
  apply Hcr, universal_newlines_no_cr.
Qed.

Lemma Forall_filter {A} (P : A -> Prop) (f : A -> bool) (l : list A) :
  Forall P l -> Forall P (List.filter f l).
Proof.
  intros H. apply List.Forall_forall. intros x [Hx _]%List.filter_In.
  revert x Hx. now apply List.Forall_forall.
Qed.

(** X9 (a new host name is added without a question).  When no stored
    record has the host name that was entered, [add_host] asks nothing at
    this point, whatever the aliases are: once the keys are generated the
    file holds the stored records followed by the new one, and when the
    new record is well-formed, reading the file gives exactly that
    list. *)
Theorem add_host_appends_new_host
        (w w2 : world) (host alias usr : string) (prt : Z)
        (content key_path public_key : string) (hosts : list SSHConfig) :
  files w !! CONFIG_FILE home = Some content ->
  parse (universal_newlines content) = Ok hosts ->
  existsb (fun h => String.eqb host (hostname h)) hosts = false ->
  generate_keys home os_exec host w = (Ok (key_path, public_key), w2) ->
  let new_config_data := mkSSHConfig alias host usr prt key_path in
  exists w3,
    store_host home os_exec host alias usr prt w = (Ok tt, w3)
    /\ files w3
       = <[CONFIG_FILE home := serialize (hosts ++ [new_config_data])]>
           (files w2)
    /\ keys w3 = keys w2
    /\ (well_formed new_config_data = true ->
        file_to_dataclass (CONFIG_FILE home) w3
        = (Ok (hosts ++ [new_config_data])%list, w3)).
Proof.
  intros Hf Hp Hex Hg new_config_data.
  destruct (store_host_writes w w w2 host alias usr prt hosts key_path public_key
              (check_existing_absent _ _ _ _ Hf Hp Hex) Hg)
    as (w3 & Hrun & Hfiles & Hkeys).
  exists w3. repeat split; try assumption.
  intros Hwf. apply read_back.
  - apply Forall_app. split; [now apply (parsed_readable content)|].
    constructor; [now apply well_formed_readable | constructor].
  - rewrite Hfiles. apply lookup_insert_eq.
Qed.

Lemma kept_none (host : string) (hosts : list SSHConfig) :
  List.filter (fun h => String.eqb (hostname h) host) (kept host hosts) = [].
Proof.
  unfold kept. induction hosts as [|h hs IH]; [reflexivity|].
  simpl. destruct (String.eqb (hostname h) host) eqn:E; simpl.
  - exact IH.
  - now rewrite E.
Qed.

(** X10 (a confirmed overwrite, read back).  After a confirmed overwrite
    with a well-formed new record, reading the file gives the stored
    records of other host names followed by the new record: the host
    name occurs in exactly one record, the last. *)
Theorem add_host_overwrite_read_back
        (w w2 : world) (host alias usr : string) (prt : Z)
        (content answer key_path public_key : string)
        (hosts : list SSHConfig) (ks : list key) :
  files w !! CONFIG_FILE home = Some content ->
  parse (universal_newlines content) = Ok hosts ->
  existsb (fun h => String.eqb host (hostname h)) hosts = true ->
  keys w = Line answer :: ks ->
  says_yes answer = true ->
  generate_keys home os_exec host (asked w host ks)
  = (Ok (key_path, public_key), w2) ->
  well_formed (mkSSHConfig alias host usr prt key_path) = true ->
  exists w3 stored,
    store_host home os_exec host alias usr prt w = (Ok tt, w3)
    /\ file_to_dataclass (CONFIG_FILE home) w3 = (Ok stored, w3)
    /\ stored = (kept host hosts ++ [mkSSHConfig alias host usr prt key_path])%list
    /\ List.length (List.filter (fun h => String.eqb (hostname h) host) stored)
       = 1.
Proof.
  intros Hf Hp Hex Hk Hy Hg Hwf.
  destruct (store_host_writes w (asked w host ks) w2 host alias usr prt
              (kept host hosts) key_path public_key
              (check_existing_confirmed home w host content answer hosts ks
                 Hf Hp Hex Hk Hy) Hg)
    as (w3 & Hrun & Hfiles & _).
  exists w3, (kept host hosts ++ [mkSSHConfig alias host usr prt key_path])%list.
  repeat split; try assumption.
  - apply read_back.
    + apply Forall_app. split.
      * apply Forall_filter. now apply (parsed_readable content).
      * constructor; [now apply well_formed_readable | constructor].
    + rewrite Hfiles. apply lookup_insert_eq.
  - rewrite List.filter_app. simpl. rewrite String.eqb_refl.
    rewrite length_app. simpl.
    now rewrite kept_none.
Qed.

End WizardRuns.

Lemma add_host_appends_new_host_witness :
  exists w3,
    store_host sample_home sample_exec "b.com" "web" "root" 22
      (sample_world (serialize [web]) [])
    = (Ok tt, w3)
    /\ file_to_dataclass (CONFIG_FILE sample_home) w3
       = (Ok [web; mkSSHConfig "web" "b.com" "root" 22 "/home/u/.ssh/keys/b_com"],
          w3).
Proof.
  edestruct (add_host_appends_new_host sample_home sample_exec
               (sample_world (serialize [web]) []))
    with (host := "b.com") (alias := "web") (usr := "root") (prt := 22%Z)
         (content := serialize [web]) (hosts := [web])
    as (w3 & Hrun & _ & _ & Hread).
  - reflexivity.
  - reflexivity.
  - reflexivity.
  - vm_compute. reflexivity.
  - exists w3. split; [exact Hrun|]. exact (Hread eq_refl).
Defined.

Lemma add_host_overwrite_read_back_witness :
  exists w3,
    store_host sample_home sample_exec "a.com" "a2" "root" 2200
      (sample_world (serialize [web; old_a]) [Line "y"])
    = (Ok tt, w3)
    /\ file_to_dataclass (CONFIG_FILE sample_home) w3
       = (Ok [web; mkSSHConfig "a2" "a.com" "root" 2200 "/home/u/.ssh/keys/a_com"],
          w3).
Proof.
  edestruct (add_host_overwrite_read_back sample_home sample_exec
               (sample_world (serialize [web; old_a]) [Line "y"]))
    with (host := "a.com") (alias := "a2") (usr := "root") (prt := 2200%Z)
         (content := serialize [web; old_a]) (answer := "y")
         (hosts := [web; old_a]) (ks := @nil key)
    as (w3 & stored & Hrun & Hread & Hstored & _).
  - reflexivity.
  - reflexivity.
  - reflexivity.
  - reflexivity.
  - reflexivity.
  - vm_compute. reflexivity.
  - reflexivity.
  - exists w3. split; [exact Hrun|]. rewrite Hread, Hstored. reflexivity.
Defined.

Lemma append_longer (s t : string) : t <> "" -> s ++ t <> s.
Proof.
  intros Ht H. apply (f_equal String.length) in H.
  rewrite length_append in H. destruct t; [congruence | simpl in H; lia].
Qed.

Lemma prefix_other_letter (a b : ascii) (p q s : string) :
  a <> b -> String.prefix (String a p) s = true ->
  String.prefix (String b q) s = false.
Proof.
  intros Hab. destruct s as [|c s]; [discriminate|]. simpl.
  destruct (ascii_dec a c) as [<-|]; [|discriminate].
  intros _. destruct (ascii_dec b a); [congruence | reflexivity].
Qed.

Section Turns.

Variable home : string.
Variable os_exec : list string -> gmap string string ->
                   proc_result * gmap string string.
Variable markup_ok : string -> bool.

(** X11 (an unreachable host, declined).  When [ping] fails and the user
    declines to go on, [add_host] stops after the note that it aborts:
    it has asked for the domain name, the alias and the confirmation
    only, and the files are as [ping] left them. *)
Theorem add_host_unreachable_declined
        (w : world) (domain alias answer label rest out err : string)
        (rc : Z) (fs : gmap string string) (ks : list key) :
  keys w = Line domain :: Line alias :: Line answer :: ks ->
  lower (strip domain) = label ++ "." ++ rest ->
  str_all no_dot label = true ->
  os_exec ["ping"; "-c"; "1"; "-i"; "0.5"; label ++ "." ++ rest] (files w)
  = (Exited rc out err, fs) ->
  rc <> 0%Z ->
  says_no answer = true ->
  add_host home os_exec w
  = (Ok tt,
     mkWorld fs ks
       (log w ++
        [ Ask "Enter the domain name. (e.g. host.example.com): ";
          Ask ("Enter an alias of the host (usage: ssh <alias>) ["
               ++ label ++ "]: ");
          Err ((label ++ "." ++ rest)
               ++ " can't be reached, do want to continue anyway? [Y/n] ") "";
          Ask "";
          Err "... aborting" (chr LF) ])%list).
Proof.
  intros Hk Hd Hl Hping Hrc Hn. unfold add_host, bind at 1.
  rewrite (ask_domain_name_run w domain alias label rest (Line answer :: ks)
             Hk Hd Hl).
  cbv beta iota zeta.
  unfold bind at 1, check_host_up, bind at 1, subprocess_run. simpl files.
  rewrite Hping. cbv beta iota zeta.
  apply Z.eqb_neq in Hrc. rewrite Hrc. change (negb false) with true.
  unfold bind at 1, stderr, show. unfold bind at 1.
  cbv beta iota. simpl files. simpl keys. simpl log.
  erewrite yes_declines; [|reflexivity|exact Hn].
  unfold bind, ret. simpl. now repeat rewrite <- app_assoc.
Qed.

(** X12 (a private key without its public key).  When the key directory
    holds a key file for the host but no [.pub] file beside it,
    [generate_keys] removes the key file and then ends in the
    [FileNotFoundError] of removing the public key; [ssh-keygen] is not
    run. *)
Theorem generate_keys_stale_private_key
        (w : world) (host private out err : string) (rc : Z)
        (fs : gmap string string) :
  let key_path := (SSH_KEY_DIR home ++ "/" ++ replace "." "_" host)%string in
  os_exec ["mkdir"; "-p"; SSH_KEY_DIR home] (files w) = (Exited rc out err, fs) ->
  fs !! key_path = Some private ->
  fs !! (key_path ++ ".pub") = None ->
  generate_keys home os_exec host w
  = (Raise FileNotFoundError,
     mkWorld (delete key_path fs) (keys w)
             (log w ++ [Out "generating keys ..."])%list).
Proof.
  intros key_path Hmk Hkey Hpub.
  unfold generate_keys, bind at 1, print, show.
  unfold bind at 1, subprocess_run. simpl files. rewrite Hmk.
  cbv beta iota zeta. fold key_path.
  unfold bind at 1, path_exists. simpl files. rewrite Hkey.
  rewrite bool_decide_eq_true_2 by (now eexists).
  unfold bind at 1. unfold bind at 1, remove. simpl files. rewrite Hkey.
  simpl files.
  rewrite lookup_delete_ne by (intros E; symmetry in E; revert E;
                               now apply append_longer).
  now rewrite Hpub.
Qed.

(** X13 (no config file).  Without a config file every reader ends in a
    [FileNotFoundError] and leaves the world as it is: a turn of the loop
    before it prompts, [list] before it prints, and the wizard's check
    for an existing configuration, after all its questions. *)
Theorem missing_config_file (w : world) (host alias usr : string) (prt : Z) :
  files w !! CONFIG_FILE home = None ->
  iteration home os_exec markup_ok w = (Raise FileNotFoundError, w)
  /\ list_config home w = (Raise FileNotFoundError, w)
  /\ store_host home os_exec host alias usr prt w = (Raise FileNotFoundError, w).
Proof.
  intros Hf.
  assert (Hread : file_to_dataclass (CONFIG_FILE home) w
                  = (Raise FileNotFoundError, w)).
  { unfold file_to_dataclass, bind, read_file. now rewrite Hf. }
  repeat split.
  - unfold iteration, bind at 1. now rewrite Hread.
  - unfold list_config, bind at 1. now rewrite Hread.
  - unfold store_host, bind at 1, check_existing, bind at 1. now rewrite Hread.
Qed.

Lemma iteration_line (w : world) (text content : string) (ks : list key)
      (hosts : list SSHConfig) :
  files w !! CONFIG_FILE home = Some content ->
  parse (universal_newlines content) = Ok hosts ->
  keys w = Line text :: ks ->
  iteration home os_exec markup_ok w
  = dispatch home os_exec markup_ok text
      (mkWorld (files w) ks (log w ++ [Ask ">>> "])%list).
Proof.
  intros Hf Hp Hk. unfold iteration, bind at 1.
  rewrite (file_to_dataclass_run _ _ _ Hf), Hp.
  unfold bind at 1, try, prompt. now rewrite Hk.
Qed.

(** X14 ([add] and [remove] do nothing).  A line that starts with [add]
    or with [remove] is taken and nothing happens: nothing is shown, no
    file is written, no further key is taken; the loop goes on.  The
    wizard is not run from the loop.  (A turn whose config file does not
    parse never comes to its prompt.) *)
Theorem add_and_remove_ignored
        (w : world) (text content : string) (ks : list key) :
  files w !! CONFIG_FILE home = Some content ->
  keys w = Line text :: ks ->
  startswith text "add" = true \/ startswith text "remove" = true ->
  iteration home os_exec markup_ok w
  = after_parse content w
      (Ok Continue, mkWorld (files w) ks (log w ++ [Ask ">>> "])%list).
Proof.
  intros Hf Hk H. unfold after_parse.
  destruct (parse (universal_newlines content)) as [hosts|e] eqn:Hp;
    [|now apply (iteration_unparsed home os_exec markup_ok w content)].
  rewrite (iteration_line w text content ks hosts Hf Hp Hk).
  unfold dispatch, startswith in *.
  destruct H as [H|H].
  - rewrite (prefix_other_letter "a" "s" _ "sh" _ ltac:(discriminate) H).
    rewrite (prefix_other_letter "a" "r" _ "emove" _ ltac:(discriminate) H).
    now rewrite H.
  - rewrite (prefix_other_letter "r" "s" _ "sh" _ ltac:(discriminate) H).
    now rewrite H.
Qed.

(** X15 (leaving the loop).  A turn on a line ends the loop by [break]
    exactly when the config file parses and the line starts with [exit];
    the keys behind the line are left, and nothing but the prompt has
    been shown. *)
Theorem break_iff_exit (w : world) (text content : string) (ks : list key) :
  files w !! CONFIG_FILE home = Some content ->
  keys w = Line text :: ks ->
  ((exists hosts, parse (universal_newlines content) = Ok hosts)
   /\ startswith text "exit" = true
   <-> iteration home os_exec markup_ok w
       = (Ok Break, mkWorld (files w) ks (log w ++ [Ask ">>> "])%list)).
Proof.
  intros Hf Hk.
  destruct (parse (universal_newlines content)) as [hosts|e] eqn:Hp.
  2:{ rewrite (iteration_unparsed home os_exec markup_ok w content e Hf Hp).
      split; [now intros [[hosts [=]] _] | discriminate]. }
  rewrite (iteration_line w text content ks hosts Hf Hp Hk).
  split.
  - intros [_ H]. unfold dispatch, startswith in *.
    rewrite (prefix_other_letter "e" "s" _ "sh" _ ltac:(discriminate) H).
    rewrite (prefix_other_letter "e" "r" _ "emove" _ ltac:(discriminate) H).
    rewrite (prefix_other_letter "e" "a" _ "dd" _ ltac:(discriminate) H).
    rewrite (prefix_other_letter "e" "l" _ "ist" _ ltac:(discriminate) H).
    rewrite (prefix_other_letter "e" "h" _ "elp" _ ltac:(discriminate) H).
    now rewrite H.
  - intros H. split; [now exists hosts|]. revert H. apply dispatch_break.
Qed.

End Turns.

Lemma add_host_unreachable_declined_witness :
  add_host sample_home unreachable_exec
    (sample_world "" [Line "A.com"; Line ""; Line "n"; Line "x"])
  = (Ok tt,
     mkWorld {[ CONFIG_FILE sample_home := "" ]} [Line "x"]
       [ Ask "Enter the domain name. (e.g. host.example.com): ";
         Ask "Enter an alias of the host (usage: ssh <alias>) [a]: ";
         Err "a.com can't be reached, do want to continue anyway? [Y/n] " "";
         Ask "";
         Err "... aborting" (chr LF) ]).
Proof.
  refine (add_host_unreachable_declined sample_home unreachable_exec
            (sample_world "" [Line "A.com"; Line ""; Line "n"; Line "x"])
            "A.com" "" "n" "a" "com" "" "" 2%Z _ [Line "x"]
            eq_refl eq_refl eq_refl eq_refl _ eq_refl).
  discriminate.
Defined.

Lemma generate_keys_stale_private_key_witness :
  generate_keys sample_home sample_exec "a.com"
    (mkWorld {[ "/home/u/.ssh/keys/a_com" := "PRIVATE KEY" ]} [] [])
  = (Raise FileNotFoundError,
     mkWorld (delete "/home/u/.ssh/keys/a_com"
                     {[ "/home/u/.ssh/keys/a_com" := "PRIVATE KEY" ]})
             [] [Out "generating keys ..."]).
Proof.
  exact (generate_keys_stale_private_key sample_home sample_exec
           (mkWorld {[ "/home/u/.ssh/keys/a_com" := "PRIVATE KEY" ]} [] [])
           "a.com" "PRIVATE KEY" "" "" 0%Z
           {[ "/home/u/.ssh/keys/a_com" := "PRIVATE KEY" ]}
           eq_refl eq_refl eq_refl).
Defined.

Lemma missing_config_file_witness :
  iteration sample_home sample_exec sample_markup_ok (mkWorld ∅ [Line "list"] [])
  = (Raise FileNotFoundError, mkWorld ∅ [Line "list"] [])
  /\ list_config sample_home (mkWorld ∅ [Line "list"] [])
     = (Raise FileNotFoundError, mkWorld ∅ [Line "list"] [])
  /\ store_host sample_home sample_exec "a.com" "a" "admin" 22
       (mkWorld ∅ [Line "list"] [])
     = (Raise FileNotFoundError, mkWorld ∅ [Line "list"] []).
Proof.
  exact (missing_config_file sample_home sample_exec sample_markup_ok
           (mkWorld ∅ [Line "list"] []) "a.com" "a" "admin" 22%Z eq_refl).
Defined.

Lemma add_and_remove_ignored_witness :
  iteration sample_home sample_exec sample_markup_ok
    (sample_world (serialize [web]) [Line "add"; Line "web.example.com"])
  = (Ok Continue,
     mkWorld {[ CONFIG_FILE sample_home := serialize [web] ]}
             [Line "web.example.com"] [Ask ">>> "])
  /\ iteration sample_home sample_exec sample_markup_ok
       (sample_world (serialize [web]) [Line "remove web"])
     = (Ok Continue,
        mkWorld {[ CONFIG_FILE sample_home := serialize [web] ]} []
                [Ask ">>> "]).
Proof.
  split.
  - exact (add_and_remove_ignored sample_home sample_exec sample_markup_ok
             (sample_world (serialize [web]) [Line "add"; Line "web.example.com"])
             "add" (serialize [web]) [Line "web.example.com"]
             eq_refl eq_refl (or_introl eq_refl)).
  - exact (add_and_remove_ignored sample_home sample_exec sample_markup_ok
             (sample_world (serialize [web]) [Line "remove web"])
             "remove web" (serialize [web]) []
             eq_refl eq_refl (or_intror eq_refl)).
Defined.

Lemma break_iff_exit_witness :
  iteration sample_home sample_exec sample_markup_ok
    (sample_world "" [Line "exit now"; Line "list"])
  = (Ok Break,
     mkWorld {[ CONFIG_FILE sample_home := "" ]} [Line "list"] [Ask ">>> "]).
Proof.
  exact (proj1 (break_iff_exit sample_home sample_exec sample_markup_ok
                  (sample_world "" [Line "exit now"; Line "list"])
                  "exit now" "" [Line "list"] eq_refl eq_refl)
           (conj (ex_intro _ [] eq_refl) eq_refl)).
Defined.

(** ** Lines and their fields *)

Lemma split_nonempty (sep : ascii) (s : string) : split sep s <> [].
Proof.
  destruct s as [|c s]; simpl; [discriminate|].
  destruct (Ascii.eqb c sep); [discriminate|].
  destruct (split sep s); discriminate.
Qed.

(** Joining the fields of a line with the separator gives the line. *)
Lemma join_split (sep : ascii) (s : string) :
  join (chr sep) (split sep s) = s.
Proof.
  unfold join. induction s as [|c s IH]; simpl; [reflexivity|].
  pose proof (split_nonempty sep s) as Hne.
  destruct (Ascii.eqb_spec c sep) as [->|Hc].
  - destruct (split sep s) as [|h t] eqn:E; [congruence|].
    simpl. simpl in IH. now rewrite IH.
  - destruct (split sep s) as [|h t] eqn:E; [congruence|].
    destruct t as [|h' t]; simpl in *; now rewrite <- IH.
Qed.

Lemma split_first_field (a b : string) :
  str_all no_blank a = true -> split " " (a ++ " " ++ b) = a :: split " " b.
Proof.
  induction a as [|c a IH]; simpl; [reflexivity|].
  unfold no_blank at 1. intros [Hc Ha]%andb_true_iff.
  apply negb_true_iff in Hc. rewrite Hc.
  change (a ++ String " " b) with (a ++ " " ++ b). now rewrite (IH Ha).
Qed.

Section Lines.

Variable home : string.
Variable os_exec : list string -> gmap string string ->
                   proc_result * gmap string string.
Variable markup_ok : string -> bool.

(** X16 ([configure] lines).  A line [configure <args>] never fails and
    changes no file: [show] as first argument prints the four defaults,
    whatever follows it; [set] with exactly two more fields does nothing
    and shows nothing; anything else gives one complaint on the error
    stream that repeats the arguments as they were typed. *)
Theorem configure_line (args : string) (w : world) :
  dispatch home os_exec markup_ok ("configure " ++ args) w
  = (Ok Continue,
     mkWorld (files w) (keys w) (log w ++ configure_shows home args)%list).
Proof.
  unfold dispatch.
  change (startswith ("configure " ++ args) "ssh") with false.
  change (startswith ("configure " ++ args) "remove") with false.
  change (startswith ("configure " ++ args) "add") with false.
  change (startswith ("configure " ++ args) "list") with false.
  change (startswith ("configure " ++ args) "help") with false.
  change (startswith ("configure " ++ args) "exit") with false.
  assert (Hc : startswith ("configure " ++ args) "configure" = true).
  { unfold startswith. simpl.
    repeat match goal with
           | |- context [ascii_dec ?a ?a] =>
               destruct (ascii_dec a a); [|congruence]
           end.
    now destruct args. }
  rewrite Hc.
  change ("configure " ++ args) with ("configure" ++ " " ++ args).
  rewrite (split_first_field "configure" args eq_refl). simpl tl.
  unfold configure_shows, bind at 1, configure, bind at 1.
  pose proof (join_split " " args) as Hjoin.
  destruct (split " " args) as [|first more] eqn:E;
    [now destruct (split_nonempty " " args)|].
  unfold ret at 1.
  destruct (String.eqb first "show").
  - unfold bind, print, show, ret, CONFIG_FILE, SSH_KEY_DIR. simpl.
    now repeat rewrite <- app_assoc.
  - replace (List.length (first :: more) =? 3)%nat
      with (List.length more =? 2)%nat by reflexivity.
    destruct (String.eqb first "set" && (List.length more =? 2)%nat).
    + unfold bind, ret. destruct w. simpl. now rewrite app_nil_r.
    + unfold bind, stderr, show, ret. change (chr " ") with " " in Hjoin.
      now rewrite Hjoin.
Qed.

(** X17 ([ssh] lines).  A line that starts with [ssh] is handed to the
    operating system field by field, so that the command run is the line
    as typed.  When the child exits, what it wrote is shown, standard
    output first, and the loop goes on; an interrupt during the child is
    reported and the loop goes on; a command that cannot be started ends
    the loop in a [FileNotFoundError]. *)
Theorem ssh_line (text : string) (w : world) (r : proc_result)
        (fs : gmap string string) :
  startswith text "ssh" = true ->
  os_exec (split " " text) (files w) = (r, fs) ->
  join " " (split " " text) = text
  /\ dispatch home os_exec markup_ok text w
     = match r with
       | Exited _ out err =>
           (Ok Continue,
            mkWorld fs (keys w) (log w ++ child_output out err)%list)
       | Interrupted =>
           (Ok Continue,
            mkWorld fs (keys w)
                    (log w ++ [Err " Keyboard Interrupt!" (chr LF)])%list)
       | NotStarted => (Raise FileNotFoundError, mkWorld fs (keys w) (log w))
       end.
Proof.
  intros Hs Hexec. split; [apply (join_split " ")|].
  unfold dispatch. rewrite Hs.
  unfold bind at 1, ssh_command, bind at 1, try, subprocess_run.
  rewrite Hexec. destruct r as [rc out err| |]; simpl.
  - unfold child_output, bind, print, stderr, show, ret.
    destruct out, err; simpl; try rewrite app_nil_r;
      repeat rewrite <- app_assoc; reflexivity.
  - reflexivity.
  - reflexivity.
Qed.

End Lines.

Lemma ssh_line_witness :
  join " " (split " " "ssh  web") = "ssh  web"
  /\ split " " "ssh  web" = ["ssh"; ""; "web"]
  /\ dispatch sample_home interrupted_exec sample_markup_ok "ssh  web"
       (sample_world "" [])
     = (Ok Continue,
        mkWorld {[ CONFIG_FILE sample_home := "" ]} []
                [Err " Keyboard Interrupt!" (chr LF)])
  /\ dispatch sample_home interrupted_exec sample_markup_ok "sshd -t"
       (sample_world "" [])
     = (Raise FileNotFoundError, sample_world "" []).
Proof.
  split; [reflexivity|]. split; [reflexivity|]. split.
  - exact (proj2 (ssh_line sample_home interrupted_exec sample_markup_ok
                    "ssh  web" (sample_world "" []) Interrupted
                    {[ CONFIG_FILE sample_home := "" ]} eq_refl eq_refl)).
  - exact (proj2 (ssh_line sample_home interrupted_exec sample_markup_ok
                    "sshd -t" (sample_world "" []) NotStarted
                    {[ CONFIG_FILE sample_home := "" ]} eq_refl eq_refl)).
Defined.

(** ** What a turn leaves alone *)

Create HintDb files discriminated.

Lemma files_ret {A} (a : A) : keeps_files (ret a).
Proof. now intros w. Qed.

Lemma files_raise {A} (e : exn) : keeps_files (@raise A e).
Proof. now intros w. Qed.

Lemma files_lift {A} (r : result A) : keeps_files (lift r).
Proof. now intros w. Qed.

Lemma files_show (o : output) : keeps_files (show o).
Proof. now intros w. Qed.

Lemma files_print (text : string) : keeps_files (print text).
Proof. now intros w. Qed.

Lemma files_stderr (text ending : string) : keeps_files (stderr text ending).
Proof. now intros w. Qed.

Lemma files_read_file (path : string) : keeps_files (read_file path).
Proof. intros w. unfold read_file. now destruct (files w !! path). Qed.

Lemma files_prompt (message : string) : keeps_files (prompt message).
Proof. intros w. unfold prompt. now destruct (keys w) as [|[]]. Qed.

Lemma files_bind {A B} (m : M A) (f : A -> M B) :
  keeps_files m -> (forall a, keeps_files (f a)) -> keeps_files (bind m f).
Proof.
  intros Hm Hf w. unfold bind. specialize (Hm w).
  destruct (m w) as [[a|e] w1]; simpl in *; [|exact Hm].
  now rewrite Hf.
Qed.

Lemma files_try {A} (m : M A) : keeps_files m -> keeps_files (try m).
Proof.
  intros Hm w. unfold try. specialize (Hm w). now destruct (m w).
Qed.

Lemma files_for_each {A} (l : list A) (body : A -> M unit) :
  (forall x, keeps_files (body x)) -> keeps_files (for_each l body).
Proof.
  intros Hb; induction l as [|x l IH]; simpl.
  - apply files_ret.
  - apply files_bind; [apply Hb | intros _; exact IH].
Qed.

#[local] Hint Resolve files_ret files_raise files_lift files_show files_print
  files_stderr files_read_file files_prompt : files.

Ltac files_steps :=
  repeat first
    [ apply files_bind; [|intros ?]
    | apply files_try
    | apply files_for_each; intros ?
    | match goal with
      | |- keeps_files (match ?x with _ => _ end) => destruct x
      | |- keeps_files (let '(_, _) := ?x in _) => destruct x
      end
    | solve [auto with files] ].

Section Untouched.

Variable home : string.
Variable os_exec : list string -> gmap string string ->
                   proc_result * gmap string string.
Variable markup_ok : string -> bool.

Lemma files_HTML (text : string) : keeps_files (HTML markup_ok text).
Proof. unfold HTML. destruct (markup_ok text); auto with files. Qed.

Hint Resolve files_HTML : files.

Lemma files_file_to_dataclass (file : string) :
  keeps_files (file_to_dataclass file).
Proof. unfold file_to_dataclass. files_steps. Qed.

Hint Resolve files_file_to_dataclass : files.

Lemma files_list_config : keeps_files (list_config home).
Proof. unfold list_config. files_steps. Qed.

Lemma files_dispatch (text : string) :
  startswith text "ssh" = false ->
  keeps_files (dispatch home os_exec markup_ok text).
Proof.
  intros Hs. pose proof files_list_config.
  unfold dispatch. rewrite Hs.
  unfold help_command, configure, unknown_command.
  files_steps.
Qed.

(** X18 (only [ssh] touches files).  Whatever a turn of the loop does and
    however it ends, the files are afterwards what they were, unless the
    line that was read starts with [ssh]: nothing in the loop writes the
    config file. *)
Theorem turn_leaves_files (w : world) :
  (forall text ks, keys w = Line text :: ks -> startswith text "ssh" = false) ->
  files (snd (iteration home os_exec markup_ok w)) = files w.
Proof.
  intros Hssh. unfold iteration, bind at 1.
  pose proof (files_file_to_dataclass (CONFIG_FILE home) w) as H0.
  pose proof (keeps_file_to_dataclass (CONFIG_FILE home) w) as K0.
  destruct (file_to_dataclass (CONFIG_FILE home) w) as [[cs|e] w0];
    simpl in H0, K0; [|exact H0].
  rewrite <- H0.
  unfold bind at 1, try, prompt.
  destruct (keys w0) as [|[text| |] ks] eqn:Hk; simpl.
  - reflexivity.
  - exact (files_dispatch text (Hssh text ks (eq_sym K0))
             (mkWorld (files w0) ks (log w0 ++ [Ask ">>> "])%list)).
  - assert (Hc : keeps_files
              (markup <- HTML markup_ok
                 "Enter <b>exit</b> to exit the shell or press <b>CTRL-D</b>." ;;
               show (ErrHTML markup) ;; ret Continue)%monad)
      by files_steps.
    exact (Hc (mkWorld (files w0) ks (log w0 ++ [Ask ">>> "])%list)).
  - reflexivity.
Qed.

(** X19 (the loop ends).  Every turn after which the loop goes on has
    taken a key, so with more turns than keys the loop never runs out of
    turns: it ends by [break], by an error, or, when a turn finds no key
    left behind a config file that parses, by [SystemExit] with code -1
    after the note that it exits. *)
Theorem loop_ends (turns : nat) (w : world) :
  List.length (keys w) < turns ->
  fst (main_loop home os_exec markup_ok turns w) <> Ok None
  /\ (forall content,
        files w !! CONFIG_FILE home = Some content ->
        keys w = [] ->
        main_loop home os_exec markup_ok turns w
        = after_parse content w
            (Raise (SystemExit (-1)),
             mkWorld (files w) []
               (log w ++ [Ask ">>> "; Err "... exiting" (chr LF)])%list)).
Proof.
  intros Hlen. split.
  - destruct (main_loop home os_exec markup_ok turns w) as [r w'] eqn:E.
    exact (main_loop_ends home os_exec markup_ok turns w w' r Hlen E).
  - intros content Hf Hk. destruct turns as [|n]; [lia|].
    simpl. unfold after_parse, bind at 1, iteration, bind at 1.
    rewrite (file_to_dataclass_run _ _ _ Hf).
    destruct (parse (universal_newlines content)) as [hosts|e];
      [|reflexivity].
    unfold bind at 1, try, prompt. rewrite Hk. simpl.
    now rewrite <- app_assoc.
Qed.

End Untouched.

Lemma turn_leaves_files_witness :
  files (snd (iteration sample_home sample_exec sample_markup_ok
                (sample_world (serialize [web]) [Line "configure set X 1"])))
  = {[ CONFIG_FILE sample_home := serialize [web] ]}.
Proof.
  refine (turn_leaves_files sample_home sample_exec sample_markup_ok
            (sample_world (serialize [web]) [Line "configure set X 1"]) _).
  intros text ks [= <- _]. reflexivity.
Defined.

Lemma loop_ends_witness :
  fst (main_loop sample_home sample_exec sample_markup_ok 3
         (sample_world "" [Line "help"; Line "exit"])) <> Ok None
  /\ main_loop sample_home sample_exec sample_markup_ok 1 (sample_world "" [])
     = (Raise (SystemExit (-1)),
        mkWorld {[ CONFIG_FILE sample_home := "" ]} []
                [Ask ">>> "; Err "... exiting" (chr LF)]).
Proof.
  split.
  - refine (proj1 (loop_ends sample_home sample_exec sample_markup_ok 3
                     (sample_world "" [Line "help"; Line "exit"]) _)).
    simpl. lia.
  - refine (proj2 (loop_ends sample_home sample_exec sample_markup_ok 1
                     (sample_world "" []) _) "" eq_refl eq_refl).
    simpl. lia.
Defined.

(** ** The table and the echo *)

Lemma table_row_length (first : SSHConfig) (others : list SSHConfig)
      (row : string) :
  In row (table_rows first others) ->
  String.length row = id_width first others + host_width first others + 3.
Proof.
  unfold table_rows. intros (host & <- & Hin)%in_map_iff.
  repeat rewrite length_append.
  rewrite length_ljust, length_ljust.
  - simpl. lia.
  - unfold host_width. repeat rewrite length_append. simpl String.length.
    transitivity (String.length (hostname host) + 1
                  + String.length (user host)); [lia|].
    apply fold_left_max_le.
    destruct Hin as [<-|Hin]; [left; lia | right].
    now apply (in_map (fun h => String.length (hostname h) + 1
                                + String.length (user h))).
  - unfold id_width. apply fold_left_max_le.
    destruct Hin as [<-|Hin]; [left; lia | right].
    now apply (in_map (fun h => String.length (ID h))).
Qed.

(** X20 (the table is a rectangle).  For a config file with at least one
    host, [list] prints a header, a rule, one row per host in the order
    of the file, and a usage line that names the first alias; every row
    is exactly as long as the rule. *)
Theorem list_config_table
        (home content : string) (w : world)
        (first : SSHConfig) (others : list SSHConfig) :
  files w !! CONFIG_FILE home = Some content ->
  parse (universal_newlines content) = Ok (first :: others) ->
  let rule := str_repeat "="
                (id_width first others + host_width first others + 3) in
  let rows := table_rows first others in
  list_config home w
  = (Ok tt,
     mkWorld (files w) (keys w)
       (log w ++
        Out (ljust "IDENTIFIER" (id_width first others) " " ++ " | HOST")
        :: Out rule
        :: map Out rows
        ++ [Out (String LF "Usage: 'ssh <identifier>' (eg: ssh "
                 ++ ID first ++ ")")])%list)
  /\ List.length rows = S (List.length others)
  /\ Forall (fun row => String.length row = String.length rule) rows.
Proof.
  intros Hf Hp rule rows. split; [|split].
  - rewrite (list_config_hosts home content w first others Hf Hp).
    unfold listing, rows, table_rows. now rewrite map_map.
  - unfold rows, table_rows. now rewrite length_map.
  - apply List.Forall_forall. intros row Hin. unfold rule.
    rewrite length_str_repeat. now apply table_row_length.
Qed.

Lemma list_config_table_witness :
  list_config sample_home (sample_world (serialize [web; db]) [])
  = (Ok tt,
     mkWorld {[ CONFIG_FILE sample_home := serialize [web; db] ]} []
       [ Out "IDENTIFIER | HOST";
         Out "===========================";
         Out "web | admin@web.example.com";
         Out "db. | root@10.0.0.7........";
         Out (String LF "Usage: 'ssh <identifier>' (eg: ssh web)") ]).
Proof.
  exact (proj1 (list_config_table sample_home (serialize [web; db])
                  (sample_world (serialize [web; db]) []) web [db]
                  eq_refl eq_refl)).
Defined.

Lemma run_loop_lines (texts : list string) (ks : list key) (turns : nat)
      (w : world) :
  keys w = (map Line texts ++ ks)%list ->
  no_line_first ks = true ->
  List.length texts < turns ->
  run_loop turns w
  = (Raise (prompt_error ks),
     mkWorld (files w) (tl ks) (log w ++ echoes texts ++ [Ask ">>> "])%list).
Proof.
  revert turns w. induction texts as [|text texts IH]; intros turns w Hk Hks Hlen.
  - destruct turns as [|n]; [simpl in Hlen; lia|].
    simpl in *. unfold bind, prompt. rewrite Hk.
    destruct ks as [|[t| |] ks]; try discriminate; reflexivity.
  - destruct turns as [|n]; [simpl in Hlen; lia|].
    simpl in *. unfold bind at 1, prompt. rewrite Hk.
    unfold bind at 1, print, show. simpl.
    rewrite (IH n); simpl; [|reflexivity|exact Hks|lia].
    now repeat rewrite <- app_assoc.
Qed.

(** X21 (the echo loop of run.py).  The loop prints every line it reads
    back behind [You said: ], in the order of the input, and ends with
    the exception of the prompt at the first key that is not a line:
    [KeyboardInterrupt] on an interrupt, [EOFError] at the end of input,
    neither of which it catches. *)
Theorem run_loop_echoes (texts : list string) (ks : list key) (turns : nat)
        (w : world) :
  keys w = (map Line texts ++ ks)%list ->
  no_line_first ks = true ->
  List.length texts < turns ->
  run_loop turns w
  = (Raise (prompt_error ks),
     mkWorld (files w) (tl ks) (log w ++ echoes texts ++ [Ask ">>> "])%list).
Proof. apply run_loop_lines. Qed.

Lemma run_loop_echoes_witness :
  run_loop 3 (mkWorld ∅ [Line "add"; Line "help me"; CtrlC; Line "x"] [])
  = (Raise KeyboardInterrupt,
     mkWorld ∅ [Line "x"]
       [ Ask ">>> "; Out "You said: add";
         Ask ">>> "; Out "You said: help me";
         Ask ">>> " ]).
Proof.
  refine (run_loop_echoes ["add"; "help me"] [CtrlC; Line "x"] 3
            (mkWorld ∅ [Line "add"; Line "help me"; CtrlC; Line "x"] [])
            eq_refl eq_refl _).
  simpl. lia.
Defined.
